(** * FlowCanvas: the graph-construction core of the pipeline editor

    A shallow embedding of [src/components/FlowCanvas.jsx]: the node
    classifier, the Smart Join pipeline (candidate selection, ordering,
    ambiguity detection, automatic connection), node deletion, the
    collision-avoidance layout pass and the manual connection handlers.

    Conventions of the embedding.
    - React state is threaded explicitly: a handler is a function from the
      editor state it closes over to the editor state after its setters and
      [updateJob] have run.
    - JavaScript strings are [string]s of ASCII characters; [toLowerCase]
      acts on the letters A-Z.
    - JavaScript numbers are [Z]: node coordinates are integral pixels, and
      the numeric suffix of an id is the integer that [parseInt] returns,
      that is the digits' value rounded to a double ([JsNumber.ofInteger]).
    - [job.components] is an array whenever [job] is present (every handler
      dereferences it unguarded); [job.flows] may be missing, which the
      source reads as [job.flows || []]. *)

From Stdlib Require Import List String Ascii ZArith Bool Lia Permutation Sorted Arith.
From Stdlib Require Import Relation_Operators.
Import ListNotations.
Local Open Scope string_scope.
Local Open Scope Z_scope.
Local Open Scope list_scope.

Set Implicit Arguments.

(** ** JavaScript string primitives *)

Module JsString.

Definition is_upper (c : ascii) : bool :=
  let n := nat_of_ascii c in (Nat.leb 65 n && Nat.leb n 90)%bool.

Definition lower_char (c : ascii) : ascii :=
  if is_upper c then ascii_of_nat (nat_of_ascii c + 32) else c.

(** [s.toLowerCase()] *)
Fixpoint toLowerCase (s : string) : string :=
  match s with
  | EmptyString => EmptyString
  | String c r => String (lower_char c) (toLowerCase r)
  end.

(** [s.startsWith('t')] *)
Definition startsWith_t (s : string) : bool :=
  match s with
  | String c _ => Ascii.eqb c "t"%char
  | EmptyString => false
  end.

(** [s.substring(1)] *)
Definition substring1 (s : string) : string :=
  match s with
  | String _ r => r
  | EmptyString => EmptyString
  end.

(** [s.replace('t', '')]: a string pattern replaces its first occurrence
    only, wherever it is. *)
Fixpoint replace_first_t (s : string) : string :=
  match s with
  | EmptyString => EmptyString
  | String c r => if Ascii.eqb c "t"%char then r else String c (replace_first_t r)
  end.

(** Truthiness of a string value: only the empty string is falsy. *)
Definition truthy (s : string) : bool :=
  match s with EmptyString => false | _ => true end.

Definition is_digit (c : ascii) : bool :=
  let n := nat_of_ascii c in (Nat.leb 48 n && Nat.leb n 57)%bool.

Definition digit_value (c : ascii) : Z := Z.of_nat (nat_of_ascii c - 48).

(** The integer that a string of decimal digits denotes. *)
Definition parse_digits (ds : list ascii) : Z :=
  fold_left (fun acc c => 10 * acc + digit_value c) ds 0.

(** The longest run of digits at the front of a character list, and what
    follows it. *)
Fixpoint span_digits (l : list ascii) : list ascii * list ascii :=
  match l with
  | c :: r =>
      if is_digit c then let (ds, rest) := span_digits r in (c :: ds, rest)
      else ([], l)
  | [] => ([], [])
  end.

End JsString.

(** ** JavaScript numbers

    A number is an IEEE 754 double. An integer below 2^53 is a double as it
    is; a larger one is rounded to 53 significant bits, to the nearest
    double and to the even one of two equally near, and from 2^1024 on to
    [Infinity]. The doubles met here are integers, so a double is kept as
    the integer it equals, and [Infinity] as 2^1024, which is above every
    finite double. *)

Module JsNumber.

Definition infinity : Z := 2 ^ 1024.

(** The double nearest to a non-negative integer. *)
Definition ofInteger (n : Z) : Z :=
  if n <? 2 ^ 53 then n
  else
    let e := Z.log2 n - 52 in
    let q := Z.shiftr n e in
    let r := n - Z.shiftl q e in
    let half := 2 ^ (e - 1) in
    let q' := if (half <? r) || ((r =? half) && Z.odd q) then q + 1 else q in
    let v := Z.shiftl q' e in
    if infinity <=? v then infinity else v.

(** [parseInt(ds, 10)] on a string of decimal digits: the double nearest to
    the integer the digits denote. (Past twenty significant digits the
    language lets an engine read the later digits as zeros before it
    rounds; the digits are taken as they are here.) *)
Definition parseInt (ds : list ascii) : Z := ofInteger (JsString.parse_digits ds).

End JsNumber.

(** ** Lookup in an object literal

    [registry[key]] on an object literal finds the literal's own properties
    and, failing that, the members every object inherits from
    [Object.prototype]; these are functions (or, for [__proto__], the
    prototype object), all truthy. *)

Module JsObject.

Inductive property (A : Type) : Type :=
| Own (a : A)      (* a property of the literal *)
| Inherited        (* a member of Object.prototype *)
| Missing.         (* undefined *)
Arguments Inherited {A}.
Arguments Missing {A}.

Definition prototype_members : list string :=
  [ "constructor"; "__proto__"; "hasOwnProperty"; "isPrototypeOf";
    "propertyIsEnumerable"; "toLocaleString"; "toString"; "valueOf";
    "__defineGetter__"; "__defineSetter__"; "__lookupGetter__";
    "__lookupSetter__" ].

Fixpoint own {A} (tbl : list (string * A)) (k : string) : option A :=
  match tbl with
  | [] => None
  | (k', a) :: r => if String.eqb k' k then Some a else own r k
  end.

Definition get {A} (tbl : list (string * A)) (k : string) : property A :=
  match own tbl k with
  | Some a => Own a
  | None => if existsb (String.eqb k) prototype_members then Inherited else Missing
  end.

End JsObject.

(** ** Data model *)

Record Position := { pos_x : Z; pos_y : Z }.

Record Component := {
  comp_id : string;
  comp_original_type : option string;
  comp_type : option string;
  comp_position : Position;
  comp_active : bool
}.

Record Flow := {
  flow_name : string;
  flow_from : string;
  flow_to : string;
  flow_type : string
}.

Record Job := {
  components : list Component;
  flows : option (list Flow)
}.

Inductive Category := Input | Transform | Output.

Definition Category_eqb (a b : Category) : bool :=
  match a, b with
  | Input, Input | Transform, Transform | Output, Output => true
  | _, _ => false
  end.

(** ** Node classifier *)

(** [x?.toLowerCase()] followed by [||]: the lower-cased string when the
    property is present and non-empty. *)
Definition lowered (o : option string) : option string :=
  match o with
  | Some s => if JsString.truthy s then Some (JsString.toLowerCase s) else None
  | None => None
  end.

(** The inline registry of [getComponentCategory] (lines 167-195). *)
Definition category_registry : list (string * Category) :=
  [ ("file_input_delimited", Input); ("fileinputdelimited", Input);
    ("oracle_input", Input); ("oracleinput", Input);
    ("mssql_input", Input); ("mssqlinput", Input);
    ("fixed_flow_input", Input); ("fixedflowinput", Input);
    ("row_generator", Input); ("rowgenerator", Input);
    ("filter_rows", Transform); ("filterrows", Transform);
    ("map", Transform);
    ("aggregate_row", Transform); ("aggregaterow", Transform);
    ("unique_row", Transform); ("uniquerow", Transform);
    ("join", Transform); ("unite", Transform);
    ("sort_row", Transform); ("sortrow", Transform);
    ("file_output_delimited", Output); ("fileoutputdelimited", Output);
    ("oracle_output", Output); ("oracleoutput", Output);
    ("file_output_positional", Output); ("fileoutputpositional", Output) ].

(** Lines 156-161: the string chosen among [original_type], [type] and
    ['unknown'], lower-cased, without its leading [t] when more follows. *)
Definition chosenType (c : Component) : string :=
  match lowered (comp_original_type c) with
  | Some s => s
  | None => match lowered (comp_type c) with
            | Some s => s
            | None => "unknown"
            end
  end.

Definition stripLeadingT (s : string) : string :=
  if (JsString.startsWith_t s && Nat.ltb 1 (String.length s))%bool
  then JsString.substring1 s else s.

Definition categoryKey (c : Component) : string := stripLeadingT (chosenType c).

(** [categoryInfo.category] for [categoryInfo = registry[k] || {category:
    'Transform'}]: a member inherited from [Object.prototype] is truthy and
    has no [category], so the result is [undefined], here [None]. *)
Definition categoryOfKey (k : string) : option Category :=
  match JsObject.get category_registry k with
  | JsObject.Own cat => Some cat
  | JsObject.Inherited => None
  | JsObject.Missing => Some Transform
  end.

Definition getComponentCategory (c : Component) : option Category :=
  categoryOfKey (categoryKey c).

(** [getComponentCategory(node) === 'Input'] and the like. *)
Definition hasCategory (cat : Category) (c : Component) : bool :=
  match getComponentCategory c with
  | Some cat' => Category_eqb cat' cat
  | None => false
  end.

(** Ports, [getComponentRegistryInfo] (lines 660-690). *)
Record Ports := { inputs : list string; outputs : list string }.

Inductive RegistryInfo :=
| PortInfo (p : Ports)
| PrototypeMember.   (* a member of Object.prototype: no inputs, no outputs *)

Definition port_registry : list (string * Ports) :=
  [ ("file_input_delimited", {| inputs := []; outputs := ["main"] |});
    ("file_output_delimited", {| inputs := ["main"]; outputs := ["main"] |});
    ("map", {| inputs := ["main"]; outputs := ["main"] |});
    ("filter_rows", {| inputs := ["main"]; outputs := ["main"; "reject"] |});
    ("aggregate_row", {| inputs := ["main"]; outputs := ["main"; "reject"] |});
    ("unique_row", {| inputs := ["main"]; outputs := ["main"] |});
    ("oracle_input", {| inputs := []; outputs := ["main"; "reject"] |});
    ("oracle_output", {| inputs := ["main"]; outputs := [] |});
    ("join", {| inputs := ["main"; "lookup"]; outputs := ["main"; "reject"] |});
    ("unite", {| inputs := ["main"; "lookup"]; outputs := ["main"] |});
    ("log_row", {| inputs := ["main"]; outputs := ["main"] |});
    ("python_component", {| inputs := []; outputs := ["main"] |});
    ("die", {| inputs := ["main"]; outputs := [] |});
    ("warn", {| inputs := ["main"]; outputs := ["main"] |}) ].

Definition defaultPorts : Ports := {| inputs := ["main"]; outputs := ["main"] |}.

(** Lines 682-683: [original_type?.toLowerCase().replace('t', '') ||
    type?.toLowerCase() || 'default']. *)
Definition componentKey (c : Component) : string :=
  let fromOriginal :=
    match comp_original_type c with
    | Some s =>
        let k := JsString.replace_first_t (JsString.toLowerCase s) in
        if JsString.truthy k then Some k else None
    | None => None
    end in
  match fromOriginal with
  | Some k => k
  | None => match lowered (comp_type c) with
            | Some k => k
            | None => "default"
            end
  end.

Definition portsOfKey (k : string) : RegistryInfo :=
  match JsObject.get port_registry k with
  | JsObject.Own p => PortInfo p
  | JsObject.Inherited => PrototypeMember
  | JsObject.Missing => PortInfo defaultPorts
  end.

Definition getComponentRegistryInfo (c : Component) : RegistryInfo :=
  portsOfKey (componentKey c).

(** ** Candidate ordering *)

(** Lines 203-206: [componentId.match(/_(\d+)$/)], then [parseInt]. The
    pattern matches exactly when the id ends in a non-empty run of digits
    that an underscore precedes; read from the end of the id, that is a run
    of digits followed by ["_"]. The result is the double [parseInt]
    returns: the digits' value itself up to 2^53, its rounding beyond. *)
Definition getNumericSuffix (componentId : string) : Z :=
  match JsString.span_digits (rev (list_ascii_of_string componentId)) with
  | (d :: ds, u :: _) =>
      if Ascii.eqb u "_"%char then JsNumber.parseInt (rev (d :: ds)) else 0
  | _ => 0
  end.

(** [categoryPriority[category] || 2] *)
Definition categoryPriority (cat : option Category) : Z :=
  match cat with
  | Some Input => 1
  | Some Transform => 2
  | Some Output => 3
  | None => 2
  end.

Definition priorityOf (c : Component) : Z := categoryPriority (getComponentCategory c).

(** The comparator of lines 211-221. The sort reads the sign of the result
    only. The difference of two suffixes is taken on the integers the two
    doubles equal: it has the sign of the double difference, and it is 0
    where that one is [NaN] (both suffixes [Infinity]), which the sort reads
    as 0. *)
Definition compareNodes (a b : Component) : Z :=
  let priorityDiff := priorityOf a - priorityOf b in
  if negb (priorityDiff =? 0) then priorityDiff
  else getNumericSuffix (comp_id a) - getNumericSuffix (comp_id b).

(** [Array.prototype.sort] with a consistent comparator is a stable sort.
    Insertion from the right keeps an element ahead of the later elements it
    compares equal to. *)
Section StableSort.
Variable A : Type.
Variable cmp : A -> A -> Z.

Fixpoint sort_insert (x : A) (l : list A) : list A :=
  match l with
  | [] => [x]
  | y :: r => if cmp x y <=? 0 then x :: y :: r else y :: sort_insert x r
  end.

Fixpoint array_sort (l : list A) : list A :=
  match l with
  | [] => []
  | x :: r => sort_insert x (array_sort r)
  end.
End StableSort.

(** ** Editor state *)

(** [connectionDragState]. Its five fields are only written together:
    [isDragging] is true exactly when the source fields are set, and the
    idle value has them null with the cursor at the origin. *)
Inductive ConnectionDragState :=
| NotDragging
| Dragging (sourceComponentId : string) (sourcePort : option string)
           (currentX currentY : Z).

Definition isDragging (d : ConnectionDragState) : bool :=
  match d with Dragging _ _ _ _ => true | NotDragging => false end.

Record FanInSelection := {
  upstreamTransforms : list string;
  downstreamTransform : option string
}.

Record GuidedJoinData := {
  inputNodes : list Component;
  transformNodes : list Component;
  outputNodes : list Component;
  inputMappings : list (string * string);
  fanInSelection : FanInSelection;
  finalOutput : option string
}.

Record EditorState := {
  job : option Job;
  selectedNodeId : option string;
  connectionDragState : ConnectionDragState;
  showSmartJoinModal : bool;
  smartJoinWarning : string;
  guidedJoinData : GuidedJoinData
}.

(** [updateJob(updatedJob)] and [loadJob(clearedJob)] replace the job. *)
Definition updateJob (st : EditorState) (j : Job) : EditorState :=
  {| job := Some j;
     selectedNodeId := selectedNodeId st;
     connectionDragState := connectionDragState st;
     showSmartJoinModal := showSmartJoinModal st;
     smartJoinWarning := smartJoinWarning st;
     guidedJoinData := guidedJoinData st |}.

Definition setSelectedNodeId (st : EditorState) (s : option string) : EditorState :=
  {| job := job st;
     selectedNodeId := s;
     connectionDragState := connectionDragState st;
     showSmartJoinModal := showSmartJoinModal st;
     smartJoinWarning := smartJoinWarning st;
     guidedJoinData := guidedJoinData st |}.

Definition setConnectionDragState (st : EditorState) (d : ConnectionDragState)
  : EditorState :=
  {| job := job st;
     selectedNodeId := selectedNodeId st;
     connectionDragState := d;
     showSmartJoinModal := showSmartJoinModal st;
     smartJoinWarning := smartJoinWarning st;
     guidedJoinData := guidedJoinData st |}.

(** [setSmartJoinWarning(w); setShowSmartJoinModal(true)] *)
Definition warn (st : EditorState) (w : string) : EditorState :=
  {| job := job st;
     selectedNodeId := selectedNodeId st;
     connectionDragState := connectionDragState st;
     showSmartJoinModal := true;
     smartJoinWarning := w;
     guidedJoinData := guidedJoinData st |}.

Definition setGuidedJoinData (st : EditorState) (g : GuidedJoinData) : EditorState :=
  {| job := job st;
     selectedNodeId := selectedNodeId st;
     connectionDragState := connectionDragState st;
     showSmartJoinModal := showSmartJoinModal st;
     smartJoinWarning := smartJoinWarning st;
     guidedJoinData := g |}.

(** [job.flows || []] *)
Definition flowsOf (j : Job) : list Flow :=
  match flows j with Some fs => fs | None => [] end.

(** ** Node deletion and canvas reset (lines 65-105) *)

Definition handleDeleteNode (st : EditorState) (nodeId : string) : EditorState :=
  match job st with
  | None => st
  | Some j =>
      if negb (JsString.truthy nodeId) then st
      else
        let updatedComponents :=
          filter (fun component => negb (String.eqb (comp_id component) nodeId))
                 (components j) in
        let updatedFlows :=
          filter (fun flow => (negb (String.eqb (flow_from flow) nodeId)
                               && negb (String.eqb (flow_to flow) nodeId))%bool)
                 (flowsOf j) in
        setSelectedNodeId
          (updateJob st {| components := updatedComponents;
                           flows := Some updatedFlows |})
          None
  end.

Definition handleClearCanvas (st : EditorState) : EditorState :=
  match job st with
  | None => st
  | Some _ =>
      setSelectedNodeId (updateJob st {| components := []; flows := Some [] |}) None
  end.

(** ** Smart Join (lines 129-324) *)

(** Step 1: [componentsWithOutgoing.has(id)] *)
Definition hasOutgoing (existingFlows : list Flow) (componentId : string) : bool :=
  existsb (fun flow => String.eqb (flow_from flow) componentId) existingFlows.

Definition availableNodes (j : Job) : list Component :=
  filter (fun component => negb (hasOutgoing (flowsOf j) (comp_id component)))
         (components j).

(** Step 4 *)
Definition sortedNodes (j : Job) : list Component :=
  array_sort compareNodes (availableNodes j).

(** Step 5 *)
Definition isAmbiguous (sorted : list Component) : bool :=
  (Nat.ltb 5 (List.length sorted)
   || Nat.ltb 1 (List.length (filter (hasCategory Input) sorted))
   || Nat.ltb 1 (List.length (filter (hasCategory Output) sorted)))%bool.

Definition guidedJoinInit (sorted : list Component) : GuidedJoinData :=
  let outs := filter (hasCategory Output) sorted in
  {| inputNodes := filter (hasCategory Input) sorted;
     transformNodes := filter (hasCategory Transform) sorted;
     outputNodes := outs;
     inputMappings := [];
     fanInSelection := {| upstreamTransforms := []; downstreamTransform := None |};
     finalOutput := match outs with
                    | [o] => Some (comp_id o)
                    | _ => None
                    end |}.

(** Line 130, [!job.components || job.components.length === 0], and line
    258, [inputNodes.length === 1 && outputNodes.length === 1]. *)
Definition noComponents (j : Job) : bool :=
  match components j with [] => true | _ :: _ => false end.

Definition singleInputOutput (sorted : list Component) : bool :=
  (Nat.eqb (List.length (filter (hasCategory Input) sorted)) 1
   && Nat.eqb (List.length (filter (hasCategory Output) sorted)) 1)%bool.

(** Step 6, the loop of lines 263-302 over consecutive pairs. *)
Definition connectionExists (existingFlows : list Flow) (src tgt : Component) : bool :=
  existsb (fun flow => (String.eqb (flow_from flow) (comp_id src)
                        && String.eqb (flow_to flow) (comp_id tgt))%bool)
          existingFlows.

Definition mainFlow (src tgt : Component) : Flow :=
  {| flow_name := "main"; flow_from := comp_id src; flow_to := comp_id tgt;
     flow_type := "flow" |}.

Fixpoint newFlows (existingFlows : list Flow) (sorted : list Component) : list Flow :=
  match sorted with
  | [] => []
  | sourceNode :: rest =>
      match rest with
      | [] => []
      | targetNode :: _ =>
          let later := newFlows existingFlows rest in
          if hasCategory Input targetNode then later
          else if hasCategory Output sourceNode then later
          else if connectionExists existingFlows sourceNode targetNode then later
          else mainFlow sourceNode targetNode :: later
      end
  end.

(** The way [handleSmartJoin] leaves, one constructor per exit; the exits
    are those the console log of the source tells apart. *)
Inductive SmartJoinOutcome :=
| NothingToJoin             (* line 131: no job or no component *)
| InsufficientCandidates    (* line 150 *)
| AmbiguousTopology         (* line 253 *)
| Success (edgesCreated : list Flow)   (* line 316 *)
| NoNewConnections          (* line 320 *)
| NotSingleInputOutput.     (* line 323: the test of line 258 fails *)

Definition insufficientWarning : string :=
  "At least 2 unconnected components are required for Smart Join.".
Definition ambiguousWarning : string :=
  "Multiple execution paths detected. Please define sequence manually.".
Definition noNewWarning : string :=
  "No new connections could be created. Components may already be connected.".

Definition handleSmartJoin (st : EditorState) : SmartJoinOutcome * EditorState :=
  match job st with
  | None => (NothingToJoin, st)
  | Some j =>
      if noComponents j then (NothingToJoin, st)
      else
        let existingFlows := flowsOf j in
        if Nat.ltb (List.length (availableNodes j)) 2
        then (InsufficientCandidates, warn st insufficientWarning)
        else
          let sorted := sortedNodes j in
          if isAmbiguous sorted
          then (AmbiguousTopology,
                warn (setGuidedJoinData st (guidedJoinInit sorted)) ambiguousWarning)
          else if singleInputOutput sorted
          then
            let created := newFlows existingFlows sorted in
            match created with
            | _ :: _ =>
                (Success created,
                 updateJob st {| components := components j;
                                 flows := Some (existingFlows ++ created) |})
            | [] => (NoNewConnections, warn st noNewWarning)
            end
          else (NotSingleInputOutput, st)
  end.

(** ** Manual connection (lines 558-637) *)

(** [x] and [y] are the centre of the pressed anchor in canvas coordinates,
    which the source reads from the DOM. *)
Definition handleAnchorMouseDown (st : EditorState) (componentId : string)
    (port : option string) (anchorType : string) (x y : Z) : EditorState :=
  if negb (String.eqb anchorType "output") then st
  else setConnectionDragState st (Dragging componentId port x y).

(** The document listeners installed by a press on an output anchor; they
    are removed when the pointer is released, so a move only arrives during
    a drag. *)
Definition handleMouseMove (st : EditorState) (x y : Z) : EditorState :=
  match connectionDragState st with
  | Dragging s p _ _ => setConnectionDragState st (Dragging s p x y)
  | NotDragging => st
  end.

Definition handleMouseUp (st : EditorState) : EditorState :=
  setConnectionDragState st NotDragging.

(** [`${sourcePort || 'main'}`] *)
Definition portNameOf (sourcePort : option string) : string :=
  match sourcePort with
  | Some p => if JsString.truthy p then p else "main"
  | None => "main"
  end.

(** Lines 602-637. Without a job the read of [job.flows] throws and nothing
    is committed. *)
Definition handleAnchorMouseUp (st : EditorState) (targetComponentId : string)
    (targetPort : option string) (anchorType : string) : EditorState :=
  match connectionDragState st with
  | NotDragging => st
  | Dragging sourceComponentId sourcePort _ _ =>
      if negb (String.eqb anchorType "input") then st
      else if String.eqb sourceComponentId targetComponentId then st
      else
        match job st with
        | None => st
        | Some j =>
            if existsb (fun flow =>
                          (String.eqb (flow_from flow) sourceComponentId
                           && String.eqb (flow_to flow) targetComponentId)%bool)
                       (flowsOf j)
            then st
            else
              let newFlow := {| flow_name := portNameOf sourcePort;
                                flow_from := sourceComponentId;
                                flow_to := targetComponentId;
                                flow_type := "flow" |} in
              updateJob st {| components := components j;
                              flows := Some (flowsOf j ++ [newFlow]) |}
        end
  end.

(** ** Collision avoidance (lines 414-459) *)

Definition NODE_WIDTH : Z := 140.
Definition NODE_HEIGHT : Z := 80.
Definition MIN_OFFSET : Z := 40.

(** An element of [adjustedComponents]: the fields of the component, spread,
    and a [renderPosition] of its own. *)
Record AdjustedComponent := {
  adj_component : Component;
  renderPosition : Position
}.

(** [{ ...comp, renderPosition: { ...comp.position } }] *)
Definition withRenderPosition (comp : Component) : AdjustedComponent :=
  {| adj_component := comp;
     renderPosition := {| pos_x := pos_x (comp_position comp);
                          pos_y := pos_y (comp_position comp) |} |}.

(** [node.renderPosition.y = v] *)
Definition setRenderY (node : AdjustedComponent) (v : Z) : AdjustedComponent :=
  {| adj_component := adj_component node;
     renderPosition := {| pos_x := pos_x (renderPosition node); pos_y := v |} |}.

Definition boxBottom (node : AdjustedComponent) : Z :=
  pos_y (renderPosition node) + NODE_HEIGHT.

(** [xOverlap && yOverlap] of lines 433-447. *)
Definition boxesOverlap (nodeA nodeB : AdjustedComponent) : bool :=
  let aLeft := pos_x (renderPosition nodeA) in
  let aRight := aLeft + NODE_WIDTH in
  let aTop := pos_y (renderPosition nodeA) in
  let aBottom := aTop + NODE_HEIGHT in
  let bLeft := pos_x (renderPosition nodeB) in
  let bRight := bLeft + NODE_WIDTH in
  let bTop := pos_y (renderPosition nodeB) in
  let bBottom := bTop + NODE_HEIGHT in
  let xOverlap := ((aLeft <? bRight) && (aRight >? bLeft))%bool in
  let yOverlap := ((aTop <? bBottom) && (aBottom >? bTop))%bool in
  (xOverlap && yOverlap)%bool.

(** The body of the inner loop on the pair [(nodeA, nodeB)]. *)
Definition resolvePair (nodeA nodeB : AdjustedComponent)
  : AdjustedComponent * AdjustedComponent :=
  if boxesOverlap nodeA nodeB then
    if pos_y (comp_position (adj_component nodeB))
       >=? pos_y (comp_position (adj_component nodeA))
    then (nodeA, setRenderY nodeB (boxBottom nodeA + MIN_OFFSET))
    else (setRenderY nodeA (boxBottom nodeB + MIN_OFFSET), nodeB)
  else (nodeA, nodeB).

(** [l[i] = v] for an index inside the array. *)
Fixpoint setAt {A} (i : nat) (v : A) (l : list A) : list A :=
  match l, i with
  | [], _ => []
  | _ :: r, O => v :: r
  | x :: r, S i' => x :: setAt i' v r
  end.

Definition adjustPair (adjusted : list AdjustedComponent) (i j : nat)
  : list AdjustedComponent :=
  match nth_error adjusted i, nth_error adjusted j with
  | Some nodeA, Some nodeB =>
      let (nodeA', nodeB') := resolvePair nodeA nodeB in
      setAt j nodeB' (setAt i nodeA' adjusted)
  | _, _ => adjusted
  end.

(** [for (let j = i + 1; j < adjustedComponents.length; j++)] *)
Definition innerLoop (i : nat) (adjusted : list AdjustedComponent)
  : list AdjustedComponent :=
  fold_left (fun acc j => adjustPair acc i j)
            (seq (S i) (List.length adjusted - S i)) adjusted.

Definition applyCollisionAvoidance (comps : list Component)
  : list AdjustedComponent :=
  let adjustedComponents := map withRenderPosition comps in
  fold_left (fun acc i => innerLoop i acc)
            (seq 0 (List.length adjustedComponents)) adjustedComponents.

(** ** Vocabulary of the properties *)

(** The ordering key of a node: category priority, then numeric suffix. *)

Definition nodeKey (c : Component) : Z * Z :=
  (priorityOf c, getNumericSuffix (comp_id c)).

Definition lex_le (k1 k2 : Z * Z) : Prop :=
  fst k1 < fst k2 \/ (fst k1 = fst k2 /\ snd k1 <= snd k2).


(** One flow per consecutive pair. *)
Fixpoint chain (l : list Component) : list Flow :=
  match l with
  | [] => []
  | a :: r => match r with
              | [] => []
              | b :: _ => mainFlow a b :: chain r
              end
  end.

(** No letter A-Z occurs in the string. *)
Fixpoint noUpper (s : string) : bool :=
  match s with
  | EmptyString => true
  | String c r => (negb (JsString.is_upper c) && noUpper r)%bool
  end.


(** Some flow of the job already joins [src] to [tgt]. *)
Definition alreadyConnected (j : Job) (src tgt : string) : Prop :=
  exists f, In f (flowsOf j) /\ flow_from f = src /\ flow_to f = tgt.

(** Referential integrity of a job and the operations that commit one. *)

Definition nodeIds (j : Job) : list string := map comp_id (components j).

Definition referentialIntegrity (j : Job) : Prop :=
  forall f, In f (flowsOf j) ->
    In (flow_from f) (nodeIds j) /\ In (flow_to f) (nodeIds j).

Definition stateIntegrity (st : EditorState) : Prop :=
  forall j, job st = Some j -> referentialIntegrity j.

(** The operations that commit a job. *)
Inductive GraphOperation :=
| DeleteNode (nodeId : string)
| ClearCanvas
| SmartJoin
| ReleaseOnAnchor (targetComponentId : string) (targetPort : option string)
                  (anchorType : string).

Definition perform (op : GraphOperation) (st : EditorState) : EditorState :=
  match op with
  | DeleteNode nodeId => handleDeleteNode st nodeId
  | ClearCanvas => handleClearCanvas st
  | SmartJoin => snd (handleSmartJoin st)
  | ReleaseOnAnchor t p a => handleAnchorMouseUp st t p a
  end.


(** ** Sample graphs *)

Definition mkComponent (i : string) (ot ty : option string) : Component :=
  {| comp_id := i; comp_original_type := ot; comp_type := ty;
     comp_position := {| pos_x := 0; pos_y := 0 |}; comp_active := true |}.

Definition sameTypeNode (i : string) (ot ty : option string) (p : Position)
    (act : bool) : Component :=
  {| comp_id := i; comp_original_type := ot; comp_type := ty;
     comp_position := p; comp_active := act |}.

(** A node of a given [original_type] at the origin. *)
Definition node (i ty : string) : Component :=
  {| comp_id := i; comp_original_type := Some ty; comp_type := None;
     comp_position := {| pos_x := 0; pos_y := 0 |}; comp_active := true |}.

(** The editor state on a freshly loaded job: the values the [useState]
    calls of lines 24-49 start from. *)
Definition initialState (j : Job) : EditorState :=
  {| job := Some j;
     selectedNodeId := None;
     connectionDragState := NotDragging;
     showSmartJoinModal := false;
     smartJoinWarning := EmptyString;
     guidedJoinData :=
       {| inputNodes := []; transformNodes := []; outputNodes := [];
          inputMappings := [];
          fanInSelection := {| upstreamTransforms := [];
                               downstreamTransform := None |};
          finalOutput := None |} |}.

Definition readWriteJob : Job :=
  {| components := [ node "tFileInputDelimited_1" "tFileInputDelimited";
                     node "tFileOutputDelimited_2" "tFileOutputDelimited" ];
     flows := None |}.

Definition twoTransformsJob : Job :=
  {| components := [ node "tMap_1" "tMap"; node "tFilterRows_2" "tFilterRows" ];
     flows := None |}.

Definition twoInputsJob : Job :=
  {| components := [ node "tFileInputDelimited_1" "tFileInputDelimited";
                     node "tOracleInput_2" "tOracleInput";
                     node "tFileOutputDelimited_3" "tFileOutputDelimited" ];
     flows := None |}.

Definition singleNodeJob : Job :=
  {| components := [ node "tMap_1" "tMap" ]; flows := None |}.

(** Two inputs and a node whose type, less its leading [t], is the name of
    a member that every object inherits. *)
Definition inheritedKeyJob : Job :=
  {| components := [ node "tFileInputDelimited_1" "tFileInputDelimited";
                     node "tOracleInput_2" "tOracleInput";
                     node "tconstructor_3" "tconstructor" ];
     flows := None |}.

Definition connectedJob : Job :=
  {| components := components readWriteJob;
     flows := Some [ {| flow_name := "main"; flow_from := "tFileInputDelimited_1";
                        flow_to := "tFileOutputDelimited_2"; flow_type := "flow" |} ] |}.

(** ** The claims C3 and C6 as the specification words them *)

(** The claim C3 as the specification words it: the second run keeps the
    flows of the first and leaves by the "no new connections" exit. *)
Definition secondRunIsNoOp (st : EditorState) : Prop :=
  let st1 := snd (handleSmartJoin st) in
  job (snd (handleSmartJoin st1)) = job st1
  /\ fst (handleSmartJoin st1) = NoNewConnections
  /\ smartJoinWarning (snd (handleSmartJoin st1)) = noNewWarning.

(** The claim C6 as the specification words it: in the cases it lists
    Smart Join shows a warning and leaves nodes and edges alone. *)
Definition abortsWithWarning (st : EditorState) : Prop :=
  forall j, job st = Some j ->
    (List.length (availableNodes j) < 2)%nat
    \/ (isAmbiguous (sortedNodes j) = false
        /\ singleInputOutput (sortedNodes j) = false) ->
    showSmartJoinModal (snd (handleSmartJoin st)) = true
    /\ job (snd (handleSmartJoin st)) = job st.

(** ** Further handlers of the component *)

(** *** Selection and keyboard deletion (lines 108-123 and 341-347) *)

(** [handleNodeClick]: the selection, and the argument passed on to the
    [onComponentClick] prop when the parent supplied one. *)
Definition handleNodeClick (hasOnComponentClick : bool) (st : EditorState)
    (componentId : string) : EditorState * option string :=
  (setSelectedNodeId st (Some componentId),
   if hasOnComponentClick then Some componentId else None).

(** The [keydown] listener: [key] is [e.key], [tagName] is
    [e.target.tagName]. *)
Definition handleKeyDown (st : EditorState) (key tagName : string) : EditorState :=
  if ((String.eqb key "Delete" || String.eqb key "Backspace")
      && negb (existsb (String.eqb tagName) ["INPUT"; "TEXTAREA"]))%bool
  then match selectedNodeId st with
       | Some nodeId => if JsString.truthy nodeId then handleDeleteNode st nodeId else st
       | None => st
       end
  else st.

(** *** New-project detection (lines 698-709)

    [hasFeeds] and [hasReconId] stand for [job.hasOwnProperty('feeds')] and
    [job.hasOwnProperty('reconId')]; every update of the job spreads the old
    one, so they do not change while a job is edited. *)
Definition isNewProject (hasFeeds hasReconId : bool) (oj : option Job) : bool :=
  match oj with
  | None => false
  | Some j =>
      let hasNoFlows := match flows j with
                        | None => true
                        | Some fs => Nat.eqb (List.length fs) 0
                        end in
      let isWizardCreated := (hasFeeds || hasReconId)%bool in
      (isWizardCreated
       || (Nat.ltb 0 (List.length (components j)) && hasNoFlows))%bool
  end.

(** *** Anchor positions (lines 639-657) *)



(** *** Objects used as maps (lines 350-355 and 712-720)

    An object is the list of its own properties in the order the language
    enumerates them ([Object.keys], [JSON.stringify], a spread): first the
    keys that are array indices, by ascending value, then the other keys in
    the order they were created. An array index is the decimal numeral,
    without sign or leading zero, of an integer below 2^32 - 1. *)
Definition isArrayIndex (k : string) : bool :=
  match list_ascii_of_string k with
  | [] => false
  | d :: r =>
      (forallb JsString.is_digit (d :: r)
       && (negb (Ascii.eqb d "0"%char) || match r with [] => true | _ => false end)
       && (JsString.parse_digits (d :: r) <? 2 ^ 32 - 1))%bool
  end.

Definition indexOf (k : string) : Z := JsString.parse_digits (list_ascii_of_string k).

(** The key [k'] of an object is enumerated before a key [k] created
    after it. *)
Definition enumeratedBefore (k' k : string) : bool :=
  if isArrayIndex k then (isArrayIndex k' && (indexOf k' <? indexOf k))%bool
  else true.

Definition hasOwn {A} (k : string) (o : list (string * A)) : bool :=
  existsb (fun e => String.eqb (fst e) k) o.

(** The value of a key the object has is replaced where the key stands. *)
Fixpoint objectReplace {A} (k : string) (v : A) (o : list (string * A))
  : list (string * A) :=
  match o with
  | [] => []
  | (k', a) :: r =>
      if String.eqb k' k then (k', v) :: r else (k', a) :: objectReplace k v r
  end.

(** A key the object does not have is created: an array index among the
    array indices, another key at the end. *)
Fixpoint objectAdd {A} (k : string) (v : A) (o : list (string * A))
  : list (string * A) :=
  match o with
  | [] => [(k, v)]
  | (k', a) :: r =>
      if enumeratedBefore k' k then (k', a) :: objectAdd k v r
      else (k, v) :: (k', a) :: r
  end.

(** [{ ...prev, [k]: v }] *)
Definition objectSet {A} (k : string) (v : A) (o : list (string * A))
  : list (string * A) :=
  if hasOwn k o then objectReplace k v o else objectAdd k v o.

Definition updateContextValue (prev : list (string * string))
    (contextName newValue : string) : list (string * string) :=
  objectSet contextName newValue prev.

Definition handleInputMappingChange (st : EditorState) (inputId transformId : string)
  : EditorState :=
  let prev := guidedJoinData st in
  setGuidedJoinData st
    {| inputNodes := inputNodes prev;
       transformNodes := transformNodes prev;
       outputNodes := outputNodes prev;
       inputMappings := objectSet inputId transformId (inputMappings prev);
       fanInSelection := fanInSelection prev;
       finalOutput := finalOutput prev |}.

(** *** Dragging a node (lines 461-516)

    One press-move-release gesture. The closure variables [startTime] and
    [hasMoved] and the fields of [dragState.current] make up the gesture;
    [updateComponentData] and [handleNodeClick] belong to the surroundings,
    so a handler returns the call it makes. Times are [Date.now()] in
    milliseconds. *)
Module NodeDrag.

Record Gesture := {
  componentId : string;
  startX : Z;
  startY : Z;
  originalPosition : Position;
  startTime : Z;
  hasMoved : bool
}.


(** The inner [handleMouseMove]: the gesture after the move and the
    [updateComponentData(id, { position })] call, if one is made. *)
Definition handleMouseMove (g : Gesture) (clientX clientY : Z)
  : Gesture * option (string * Position) :=
  let deltaX := clientX - startX g in
  let deltaY := clientY - startY g in
  if ((Z.abs deltaX >? 5) || (Z.abs deltaY >? 5))%bool
  then ({| componentId := componentId g; startX := startX g; startY := startY g;
           originalPosition := originalPosition g; startTime := startTime g;
           hasMoved := true |},
        Some (componentId g,
              {| pos_x := pos_x (originalPosition g) + deltaX;
                 pos_y := pos_y (originalPosition g) + deltaY |}))
  else (g, None).

(** The inner [handleMouseUp]: the id handed to [handleNodeClick], if the
    gesture counts as a click. *)
Definition handleMouseUp (g : Gesture) (now : Z) : option string :=
  let clickDuration := now - startTime g in
  if (negb (hasMoved g) && (clickDuration <? 300))%bool
  then Some (componentId g) else None.


End NodeDrag.

(** *** The drawer (lines 518-555)

    [clickTimeout] holds the pending single-click timer; the timer callback
    closes over the [drawerLevel] of the render in which the click
    happened, kept here with the timer. *)
Module Drawer.

Record State := {
  drawerLevel : Z;
  clickTimeout : option Z
}.

Inductive Event := Click | DoubleClick | TimerFires.

Definition initial : State := {| drawerLevel := 0; clickTimeout := None |}.

(** The body of the timer callback on the level it closed over. *)
Definition singleClick (captured current : Z) : Z :=
  if captured =? 0 then 1
  else if captured =? 1 then 0
  else if captured =? 2 then 0
  else current.

Definition step (s : State) (e : Event) : State :=
  match e with
  | Click =>
      {| drawerLevel := drawerLevel s; clickTimeout := Some (drawerLevel s) |}
  | DoubleClick =>
      {| drawerLevel := if drawerLevel s =? 1 then 2 else drawerLevel s;
         clickTimeout := None |}
  | TimerFires =>
      match clickTimeout s with
      | Some captured =>
          {| drawerLevel := singleClick captured (drawerLevel s);
             clickTimeout := None |}
      | None => s
      end
  end.

Definition run (s : State) (events : list Event) : State :=
  fold_left step events s.

End Drawer.

(** *** The theme (lines 393-410)

    [lightModeClass] tells whether [document.body] carries the class
    ['light-mode'], [savedTheme] is the entry ['rectran-theme'] of
    [localStorage]. *)
Module Theme.

Record State := {
  isDarkMode : bool;
  lightModeClass : bool;
  savedTheme : option string
}.

(** The mount effect on a body with or without the class; [isDarkMode]
    starts as [true]. *)
Definition mount (bodyLight : bool) (saved : option string) : State :=
  match saved with
  | Some theme =>
      if String.eqb theme "light"
      then {| isDarkMode := false; lightModeClass := true; savedTheme := saved |}
      else {| isDarkMode := true; lightModeClass := bodyLight; savedTheme := saved |}
  | None => {| isDarkMode := true; lightModeClass := bodyLight; savedTheme := None |}
  end.

Definition toggleTheme (s : State) : State :=
  if isDarkMode s
  then {| isDarkMode := false; lightModeClass := true; savedTheme := Some "light" |}
  else {| isDarkMode := true; lightModeClass := false; savedTheme := Some "dark" |}.

End Theme.

(** ** Vocabulary of the further properties *)

(** The (from, to) pairs of the flows of a job. *)
Definition flowPairs (j : Job) : list (string * string) :=
  map (fun f => (flow_from f, flow_to f)) (flowsOf j).

(** Unique node ids and no two flows between the same two nodes. *)
Definition wellFormed (j : Job) : Prop :=
  NoDup (nodeIds j) /\ NoDup (flowPairs j).

Definition stateWellFormed (st : EditorState) : Prop :=
  forall j, job st = Some j -> wellFormed j.

(** A flow leads from node [a] to node [b]; a flow set is acyclic when no
    node is reached from itself along one or more flows. *)
Definition flowStep (fs : list Flow) (a b : string) : Prop :=
  exists f, In f fs /\ flow_from f = a /\ flow_to f = b.

Definition acyclic (fs : list Flow) : Prop :=
  forall a, ~ clos_trans string (flowStep fs) a a.

(** The node id at a position of the ordered candidates. *)
Definition candidateIdAt (j : Job) (i : nat) (x : string) : Prop :=
  exists c, nth_error (sortedNodes j) i = Some c /\ comp_id c = x.

(** The pointer moves of a connection drag, in order. *)
Definition pointerMoves (st : EditorState) (pointer : list (Z * Z)) : EditorState :=
  fold_left (fun s p => handleMouseMove s (fst p) (snd p)) pointer st.


(** What a collision-avoidance step may do to an element: keep its
    component and move its render position down or not at all. *)
Definition movedDown (r r' : AdjustedComponent) : Prop :=
  adj_component r' = adj_component r
  /\ pos_y (renderPosition r) <= pos_y (renderPosition r').

(** A component with its type strings lower-cased. *)
Definition lowerCased (c : Component) : Component :=
  {| comp_id := comp_id c;
     comp_original_type := option_map JsString.toLowerCase (comp_original_type c);
     comp_type := option_map JsString.toLowerCase (comp_type c);
     comp_position := comp_position c;
     comp_active := comp_active c |}.

(** The drawer level is one of the three the handlers set, and a pending
    timer closed over the level that is current. *)
Definition drawerInvariant (s : Drawer.State) : Prop :=
  (Drawer.drawerLevel s = 0 \/ Drawer.drawerLevel s = 1 \/ Drawer.drawerLevel s = 2)
  /\ forall l, Drawer.clickTimeout s = Some l -> l = Drawer.drawerLevel s.

(** The states the theme reaches from a page load. *)
Definition themeConsistent (s : Theme.State) : Prop :=
  Theme.lightModeClass s = negb (Theme.isDarkMode s)
  /\ (Theme.isDarkMode s = false <-> Theme.savedTheme s = Some "light").

(** The order in which the keys of an object are enumerated: no key that
    is an array index after one that is not, and the array indices in
    ascending order. *)
Definition keyOrder (a b : string) : Prop :=
  isArrayIndex b = false \/ (isArrayIndex a = true /\ indexOf a <= indexOf b).

Definition enumerationOrdered {A} (o : list (string * A)) : Prop :=
  StronglySorted keyOrder (map fst o).

(** * Properties *)

(** ** Stable sorting *)

Section StableSortFacts.
Variable A : Type.
Variable cmp : A -> A -> Z.

Lemma sort_insert_perm (x : A) (l : list A) :
  Permutation (sort_insert cmp x l) (x :: l).
Proof.
  induction l as [|y r IH]; simpl.
  - apply Permutation_refl.
  - destruct (cmp x y <=? 0).
    + apply Permutation_refl.
    + eapply perm_trans; [apply perm_skip, IH | apply perm_swap].
Qed.

Lemma array_sort_perm (l : list A) : Permutation (array_sort cmp l) l.
Proof.
  induction l as [|x r IH]; simpl.
  - constructor.
  - eapply perm_trans; [apply sort_insert_perm | apply perm_skip, IH].
Qed.

Lemma array_sort_length (l : list A) :
  List.length (array_sort cmp l) = List.length l.
Proof. apply Permutation_length, array_sort_perm. Qed.

Lemma array_sort_filter_length (p : A -> bool) (l : list A) :
  List.length (filter p (array_sort cmp l)) = List.length (filter p l).
Proof.
  apply Permutation_length.
  generalize (array_sort_perm l). generalize (array_sort cmp l).
  intros l' HP. induction HP; simpl.
  - constructor.
  - destruct (p x); [apply perm_skip|]; assumption.
  - destruct (p x), (p y); try apply Permutation_refl. apply perm_swap.
  - eapply perm_trans; eassumption.
Qed.

(** The comparator orders by a key: it is at most zero exactly when the
    keys are in order. *)
Variable K : Type.
Variable key : A -> K.
Variable le : K -> K -> Prop.
Hypothesis le_trans : forall a b c, le a b -> le b c -> le a c.
Hypothesis le_total : forall a b, le a b \/ le b a.
Hypothesis cmp_le : forall a b, cmp a b <= 0 <-> le (key a) (key b).

Lemma sort_insert_sorted (x : A) (l : list A) :
  StronglySorted (fun a b => le (key a) (key b)) l ->
  StronglySorted (fun a b => le (key a) (key b)) (sort_insert cmp x l).
Proof.
  induction l as [|y r IH]; simpl; intros HS.
  - constructor; constructor.
  - inversion HS as [|? ? HSr Hall]; subst.
    destruct (cmp x y <=? 0) eqn:E.
    + apply Z.leb_le, cmp_le in E.
      constructor; [assumption|].
      constructor; [exact E|].
      eapply Forall_impl; [|exact Hall].
      intros z Hz. cbv beta in *. eapply le_trans; eassumption.
    + apply Z.leb_gt in E.
      assert (Hyx : le (key y) (key x)).
      { destruct (le_total (key x) (key y)) as [H|H]; [|exact H].
        apply cmp_le in H. lia. }
      constructor; [apply IH; assumption|].
      eapply Permutation_Forall; [apply Permutation_sym, sort_insert_perm|].
      constructor; assumption.
Qed.

Lemma array_sort_sorted (l : list A) :
  StronglySorted (fun a b => le (key a) (key b)) (array_sort cmp l).
Proof.
  induction l as [|x r IH]; simpl.
  - constructor.
  - apply sort_insert_sorted, IH.
Qed.




End StableSortFacts.

(** ** The ordering key of a node *)

Lemma lex_le_refl k : lex_le k k.
Proof. right; split; [reflexivity | apply Z.le_refl]. Qed.

Lemma lex_le_trans a b c : lex_le a b -> lex_le b c -> lex_le a c.
Proof. unfold lex_le; intros [H1|[H1 H1']] [H2|[H2 H2']]; lia. Qed.

Lemma lex_le_total a b : lex_le a b \/ lex_le b a.
Proof. unfold lex_le; lia. Qed.

Lemma compareNodes_le (a b : Component) :
  compareNodes a b <= 0 <-> lex_le (nodeKey a) (nodeKey b).
Proof.
  unfold compareNodes, lex_le, nodeKey; simpl.
  destruct (priorityOf a - priorityOf b =? 0) eqn:E; simpl.
  - apply Z.eqb_eq in E. lia.
  - apply Z.eqb_neq in E. lia.
Qed.


Lemma sortedNodes_perm (j : Job) : Permutation (sortedNodes j) (availableNodes j).
Proof. apply array_sort_perm. Qed.

Lemma sortedNodes_sorted (j : Job) :
  StronglySorted (fun a b => lex_le (nodeKey a) (nodeKey b)) (sortedNodes j).
Proof.
  apply array_sort_sorted with (le := lex_le).
  - apply lex_le_trans.
  - apply lex_le_total.
  - apply compareNodes_le.
Qed.

Lemma hasOutgoing_false (fs : list Flow) (i : string) :
  hasOutgoing fs i = false <-> forall f, In f fs -> flow_from f <> i.
Proof.
  unfold hasOutgoing. split.
  - intros H f Hin Heq.
    assert (existsb (fun flow => String.eqb (flow_from flow) i) fs = true).
    { apply existsb_exists. exists f. split; [assumption|]. now apply String.eqb_eq. }
    congruence.
  - intros H. destruct (existsb _ fs) eqn:E; [|reflexivity].
    apply existsb_exists in E. destruct E as [f [Hin Heq]].
    apply String.eqb_eq in Heq. exfalso. eapply H; eassumption.
Qed.


Lemma priority_of_category (c : Component) (cat : Category) :
  hasCategory cat c = true ->
  priorityOf c = categoryPriority (Some cat).
Proof.
  unfold hasCategory, priorityOf. destruct (getComponentCategory c) as [cat'|]; [|discriminate].
  destruct cat', cat; simpl; congruence.
Qed.

(** ** The numeric suffix of an id *)





(** Beyond 2^53 the odd integers are not doubles: 2^53 + 1 is read as 2^53,
    2^53 + 3 as 2^53 + 4, and 10^400 as [Infinity]. *)
Example ofInteger_rounds :
  JsNumber.ofInteger 9007199254740993 = 9007199254740992
  /\ JsNumber.ofInteger 9007199254740995 = 9007199254740996
  /\ JsNumber.ofInteger 9007199254740994 = 9007199254740994
  /\ JsNumber.ofInteger (10 ^ 400) = JsNumber.infinity.
Proof.
  split; [vm_compute; reflexivity|].
  split; [vm_compute; reflexivity|].
  split; vm_compute; reflexivity.
Qed.




Example getNumericSuffix_samples :
  getNumericSuffix "tMap_12" = 12
  /\ getNumericSuffix "tMap12" = 0
  /\ getNumericSuffix "tMap_" = 0
  /\ getNumericSuffix "tMap_1_2" = 2
  /\ getNumericSuffix "tMap_1a" = 0
  /\ getNumericSuffix "_007" = 7.
Proof. repeat split. Qed.

(** ** C4: candidate selection and ordering *)


(** ** Smart Join: the exits of the handler *)

Lemma handleSmartJoin_eq (st : EditorState) (j : Job) :
  job st = Some j ->
  handleSmartJoin st =
    if noComponents j then (NothingToJoin, st)
    else if Nat.ltb (List.length (availableNodes j)) 2
    then (InsufficientCandidates, warn st insufficientWarning)
    else if isAmbiguous (sortedNodes j)
    then (AmbiguousTopology,
          warn (setGuidedJoinData st (guidedJoinInit (sortedNodes j))) ambiguousWarning)
    else if singleInputOutput (sortedNodes j)
    then match newFlows (flowsOf j) (sortedNodes j) with
         | (_ :: _) as created =>
             (Success created,
              updateJob st {| components := components j;
                              flows := Some (flowsOf j ++ created) |})
         | [] => (NoNewConnections, warn st noNewWarning)
         end
    else (NotSingleInputOutput, st).
Proof.
  intros Hj. unfold handleSmartJoin. rewrite Hj.
  destruct (noComponents j); [reflexivity|].
  destruct (Nat.ltb _ 2); [reflexivity|].
  destruct (isAmbiguous _); [reflexivity|].
  destruct (singleInputOutput _); [|reflexivity].
  destruct (newFlows _ _); reflexivity.
Qed.

Lemma sortedNodes_length (j : Job) :
  List.length (sortedNodes j) = List.length (availableNodes j).
Proof. apply array_sort_length. Qed.

Lemma sortedNodes_count (p : Component -> bool) (j : Job) :
  List.length (filter p (sortedNodes j)) = List.length (filter p (availableNodes j)).
Proof. apply array_sort_filter_length. Qed.

Lemma filter_length_le {A} (p : A -> bool) (l : list A) :
  (List.length (filter p l) <= List.length l)%nat.
Proof.
  induction l as [|x r IH]; simpl; [lia|]. destruct (p x); simpl; lia.
Qed.

Lemma isAmbiguous_iff (j : Job) :
  isAmbiguous (sortedNodes j) = true <->
  (5 < List.length (availableNodes j))%nat
  \/ (1 < List.length (filter (hasCategory Input) (availableNodes j)))%nat
  \/ (1 < List.length (filter (hasCategory Output) (availableNodes j)))%nat.
Proof.
  unfold isAmbiguous.
  rewrite sortedNodes_length, !sortedNodes_count, !orb_true_iff, !Nat.ltb_lt.
  tauto.
Qed.

Lemma availableNodes_nil (j : Job) : noComponents j = true -> availableNodes j = [].
Proof.
  unfold noComponents, availableNodes. destruct (components j); [reflexivity|discriminate].
Qed.

Lemma ambiguous_enough (j : Job) :
  isAmbiguous (sortedNodes j) = true ->
  noComponents j = false /\ Nat.ltb (List.length (availableNodes j)) 2 = false.
Proof.
  intros H. apply isAmbiguous_iff in H.
  pose proof (filter_length_le (hasCategory Input) (availableNodes j)).
  pose proof (filter_length_le (hasCategory Output) (availableNodes j)).
  assert (Hlen : (2 <= List.length (availableNodes j))%nat) by lia.
  split.
  - destruct (noComponents j) eqn:E; [|reflexivity].
    rewrite (availableNodes_nil _ E) in Hlen. simpl in Hlen. lia.
  - apply Nat.ltb_ge. exact Hlen.
Qed.

(** ** C1: the ambiguity detector *)

(** Entry into the guided mode. On every graph Smart Join leaves by the
    ambiguous exit exactly when there are more than five candidates, or
    more than one Input candidate, or more than one Output candidate. On
    that exit the warning is shown, the guided-join data holds, in candidate
    order, the candidates of category Input, Transform and Output,
    [finalOutput] is the id of the Output candidate when there is exactly
    one and null otherwise, and the job (nodes and edges) is the one the
    handler started from. On every other exit the guided-join data is left
    as it was. A candidate without a category is in none of the lists. *)
Lemma guided_mode_entry (st : EditorState) (j : Job) :
  job st = Some j ->
  let out := fst (handleSmartJoin st) in
  let st' := snd (handleSmartJoin st) in
  let g := guidedJoinData st' in
  (out = AmbiguousTopology <->
     (5 < List.length (availableNodes j))%nat
     \/ (1 < List.length (filter (hasCategory Input) (availableNodes j)))%nat
     \/ (1 < List.length (filter (hasCategory Output) (availableNodes j)))%nat)
  /\ (out = AmbiguousTopology ->
        smartJoinWarning st' = ambiguousWarning
        /\ showSmartJoinModal st' = true
        /\ inputNodes g = filter (hasCategory Input) (sortedNodes j)
        /\ transformNodes g = filter (hasCategory Transform) (sortedNodes j)
        /\ outputNodes g = filter (hasCategory Output) (sortedNodes j)
        /\ (forall c cat, In c (availableNodes j) -> hasCategory cat c = true ->
              In c match cat with
                   | Input => inputNodes g
                   | Transform => transformNodes g
                   | Output => outputNodes g
                   end)
        /\ (forall c, In c (inputNodes g) ->
              In c (availableNodes j) /\ getComponentCategory c = Some Input)
        /\ (forall c, In c (transformNodes g) ->
              In c (availableNodes j) /\ getComponentCategory c = Some Transform)
        /\ (forall c, In c (outputNodes g) ->
              In c (availableNodes j) /\ getComponentCategory c = Some Output)
        /\ inputMappings g = []
        /\ (forall o, outputNodes g = [o] -> finalOutput g = Some (comp_id o))
        /\ (List.length (outputNodes g) <> 1%nat -> finalOutput g = None)
        /\ job st' = Some j)
  /\ (out <> AmbiguousTopology -> guidedJoinData st' = guidedJoinData st).
Proof.
  intros Hj out st' g. subst out st' g.
  rewrite (handleSmartJoin_eq _ Hj).
  destruct (isAmbiguous (sortedNodes j)) eqn:Hamb.
  - destruct (ambiguous_enough _ Hamb) as [-> ->]. simpl.
    split; [split; [intros _; now apply isAmbiguous_iff | reflexivity]|].
    split; [|intros H; congruence].
    intros _.
    assert (Hin : forall cat c,
               In c (filter (hasCategory cat) (sortedNodes j)) <->
               In c (availableNodes j) /\ hasCategory cat c = true).
    { intros cat c. rewrite filter_In.
      split; intros [H1 H2]; (split; [|exact H2]).
      - eapply Permutation_in; [apply sortedNodes_perm | exact H1].
      - eapply Permutation_in; [apply Permutation_sym, sortedNodes_perm | exact H1]. }
    assert (Hcat : forall cat c, hasCategory cat c = true ->
                     getComponentCategory c = Some cat).
    { intros cat c. unfold hasCategory.
      destruct (getComponentCategory c) as [cat'|]; [|discriminate].
      destruct cat', cat; simpl; congruence. }
    repeat split; try reflexivity.
    + intros c cat Hc Hcc. destruct cat; apply Hin; split; assumption.
    + apply Hin in H. tauto.
    + apply Hin in H. apply Hcat. tauto.
    + apply Hin in H. tauto.
    + apply Hin in H. apply Hcat. tauto.
    + apply Hin in H. tauto.
    + apply Hin in H. apply Hcat. tauto.
    + intros o Ho. rewrite Ho. reflexivity.
    + intros Hlen. destruct (filter (hasCategory Output) (sortedNodes j)) as [|o [|o' r]];
        [reflexivity | simpl in Hlen; congruence | reflexivity].
    + exact Hj.
  - assert (Hno : ~ ((5 < List.length (availableNodes j))%nat
       \/ (1 < List.length (filter (hasCategory Input) (availableNodes j)))%nat
       \/ (1 < List.length (filter (hasCategory Output) (availableNodes j)))%nat)).
    { rewrite <- isAmbiguous_iff. congruence. }
    destruct (noComponents j); simpl;
      [split; [split; [discriminate|tauto]|split; [discriminate|reflexivity]]|].
    destruct (Nat.ltb _ 2); simpl;
      [split; [split; [discriminate|tauto]|split; [discriminate|reflexivity]]|].
    destruct (singleInputOutput _); simpl;
      [|split; [split; [discriminate|tauto]|split; [discriminate|reflexivity]]].
    destruct (newFlows _ _); simpl;
      (split; [split; [discriminate|tauto]|split; [discriminate|reflexivity]]).
Qed.

(** C1. The three lists of the guided mode do not cover the candidates. On
    two inputs and a node of type [tconstructor], none connected, Smart
    Join leaves by the ambiguous exit. The third node is a candidate; its
    registry key is "constructor", which the registry lookup answers with
    the member inherited from [Object.prototype], so the node has no
    category; [inputNodes] holds the two inputs, [transformNodes] and
    [outputNodes] are empty, and the third candidate is in none of them. *)
Theorem C1_uncategorised_candidate :
  let st := initialState inheritedKeyJob in
  let c := node "tconstructor_3" "tconstructor" in
  let g := guidedJoinData (snd (handleSmartJoin st)) in
  fst (handleSmartJoin st) = AmbiguousTopology
  /\ In c (availableNodes inheritedKeyJob)
  /\ categoryKey c = "constructor"
  /\ JsObject.get category_registry (categoryKey c) = JsObject.Inherited
  /\ getComponentCategory c = None
  /\ inputNodes g = [ node "tFileInputDelimited_1" "tFileInputDelimited";
                      node "tOracleInput_2" "tOracleInput" ]
  /\ transformNodes g = []
  /\ outputNodes g = []
  /\ ~ In c (inputNodes g ++ transformNodes g ++ outputNodes g).
Proof.
  intros st c g.
  assert (Hin : inputNodes g = [ node "tFileInputDelimited_1" "tFileInputDelimited";
                                 node "tOracleInput_2" "tOracleInput" ])
    by (vm_compute; reflexivity).
  assert (Htr : transformNodes g = []) by (vm_compute; reflexivity).
  assert (Hout : outputNodes g = []) by (vm_compute; reflexivity).
  split; [vm_compute; reflexivity|].
  split; [unfold c; simpl; tauto|].
  split; [vm_compute; reflexivity|].
  split; [vm_compute; reflexivity|].
  split; [vm_compute; reflexivity|].
  split; [exact Hin|]. split; [exact Htr|]. split; [exact Hout|].
  rewrite Hin, Htr, Hout. unfold c. simpl.
  intros [H|[H|[]]]; discriminate H.
Qed.

(** ** C2: the automatic connector *)

Lemma connectionExists_false (existing : list Flow) (src tgt : Component) :
  connectionExists existing src tgt = false ->
  forall e, In e existing ->
    ~ (flow_from e = comp_id src /\ flow_to e = comp_id tgt).
Proof.
  unfold connectionExists. intros H e Hin [Hf Ht].
  assert (existsb (fun flow => (String.eqb (flow_from flow) (comp_id src)
                                && String.eqb (flow_to flow) (comp_id tgt))%bool)
                  existing = true).
  { apply existsb_exists. exists e. split; [assumption|].
    apply andb_true_iff. split; now apply String.eqb_eq. }
  congruence.
Qed.

Lemma newFlows_In (existing : list Flow) (sorted : list Component) (f : Flow) :
  In f (newFlows existing sorted) ->
  exists i src tgt,
    nth_error sorted i = Some src /\ nth_error sorted (S i) = Some tgt
    /\ f = mainFlow src tgt
    /\ hasCategory Input tgt = false
    /\ hasCategory Output src = false
    /\ connectionExists existing src tgt = false.
Proof.
  induction sorted as [|a r IH]; [intros []|].
  destruct r as [|b r']; [intros []|].
  assert (Hlater : In f (newFlows existing (b :: r')) ->
            exists i src tgt,
              nth_error (a :: b :: r') i = Some src
              /\ nth_error (a :: b :: r') (S i) = Some tgt
              /\ f = mainFlow src tgt
              /\ hasCategory Input tgt = false
              /\ hasCategory Output src = false
              /\ connectionExists existing src tgt = false).
  { intros H. destruct (IH H) as [i [src [tgt [H1 [H2 H3]]]]].
    exists (S i), src, tgt. repeat split; tauto. }
  change (newFlows existing (a :: b :: r')) with
    (if hasCategory Input b then newFlows existing (b :: r')
     else if hasCategory Output a then newFlows existing (b :: r')
     else if connectionExists existing a b then newFlows existing (b :: r')
     else mainFlow a b :: newFlows existing (b :: r')).
  destruct (hasCategory Input b) eqn:Hb; [exact Hlater|].
  destruct (hasCategory Output a) eqn:Ha; [exact Hlater|].
  destruct (connectionExists existing a b) eqn:Hc; [exact Hlater|].
  intros [<-|H]; [|exact (Hlater H)].
  exists 0%nat, a, b. repeat split; assumption.
Qed.

Lemma handleSmartJoin_job (st : EditorState) :
  (job (snd (handleSmartJoin st)) = job st
   /\ forall created, fst (handleSmartJoin st) <> Success created)
  \/ exists j created,
       job st = Some j
       /\ handleSmartJoin st =
            (Success created,
             updateJob st {| components := components j;
                             flows := Some (flowsOf j ++ created) |})
       /\ created = newFlows (flowsOf j) (sortedNodes j)
       /\ created <> []
       /\ noComponents j = false
       /\ isAmbiguous (sortedNodes j) = false
       /\ singleInputOutput (sortedNodes j) = true.
Proof.
  destruct (job st) as [j|] eqn:Hj.
  2:{ left. unfold handleSmartJoin. rewrite Hj. simpl. split; [assumption|discriminate]. }
  rewrite (handleSmartJoin_eq _ Hj).
  destruct (noComponents j) eqn:H0; [left; simpl; split; [assumption|discriminate]|].
  destruct (Nat.ltb _ 2); [left; simpl; split; [assumption|discriminate]|].
  destruct (isAmbiguous _) eqn:H2; [left; simpl; split; [assumption|discriminate]|].
  destruct (singleInputOutput _) eqn:H3; [|left; simpl; split; [assumption|discriminate]].
  destruct (newFlows _ _) as [|f r] eqn:H4; [left; simpl; split; [assumption|discriminate]|].
  right. exists j, (f :: r).
  repeat split; try reflexivity; try assumption; try (symmetry; assumption).
  discriminate.
Qed.

(** C2. Whatever the ordered sequence and the existing flows, a flow built
    by the loop of the automatic connector joins the nodes at two
    consecutive positions of the sequence, is named "main", has type
    "flow", does not end at an Input node, does not start at an Output
    node, and repeats the (from, to) pair of no existing flow. When Smart
    Join succeeds, the job it commits has the same components and the
    existing flows followed by all the created ones; no other exit of the
    handler changes the job. *)
Theorem C2_auto_connector :
  (forall (existing : list Flow) (sorted : list Component) (f : Flow),
      In f (newFlows existing sorted) ->
      exists i src tgt,
        nth_error sorted i = Some src /\ nth_error sorted (S i) = Some tgt
        /\ flow_from f = comp_id src /\ flow_to f = comp_id tgt
        /\ flow_name f = "main" /\ flow_type f = "flow"
        /\ hasCategory Input tgt = false
        /\ hasCategory Output src = false
        /\ forall e, In e existing ->
             ~ (flow_from e = flow_from f /\ flow_to e = flow_to f))
  /\ (forall st created st',
        handleSmartJoin st = (Success created, st') ->
        exists j, job st = Some j
          /\ created = newFlows (flowsOf j) (sortedNodes j)
          /\ job st' = Some {| components := components j;
                               flows := Some (flowsOf j ++ created) |})
  /\ (forall st, job (snd (handleSmartJoin st)) <> job st ->
        exists created, fst (handleSmartJoin st) = Success created).
Proof.
  split; [|split].
  - intros existing sorted f Hin.
    destruct (newFlows_In _ _ _ Hin) as [i [src [tgt [H1 [H2 [-> [H3 [H4 H5]]]]]]]].
    exists i, src, tgt. repeat split; try assumption.
    simpl. apply connectionExists_false. assumption.
  - intros st created st' H.
    destruct (handleSmartJoin_job st) as [[_ Hn]|[j [cr [Hj [Heq [Hcr _]]]]]].
    + exfalso. apply (Hn created). rewrite H. reflexivity.
    + rewrite Heq in H. injection H as <- <-. exists j. auto.
  - intros st Hne.
    destruct (handleSmartJoin_job st) as [[Hsame _]|[j [cr [Hj [Heq _]]]]].
    + contradiction.
    + exists cr. rewrite Heq. reflexivity.
Qed.

(** Scenario A of the specification: an Input, a Transform and an Output
    node without flows are chained. With the flow from the first to the
    second already there, the first node is no candidate any more, the two
    left hold no Input, and the handler returns without connecting or
    warning. *)
Example smartJoin_chain_of_three :
  let a := node "tFileInputDelimited_1" "tFileInputDelimited" in
  let b := node "tMap_2" "tMap" in
  let c := node "tFileOutputDelimited_3" "tFileOutputDelimited" in
  let ab := mainFlow a b in
  fst (handleSmartJoin (initialState {| components := [c; a; b]; flows := None |}))
    = Success [mainFlow a b; mainFlow b c]
  /\ handleSmartJoin (initialState {| components := [a; b; c]; flows := Some [ab] |})
     = (NotSingleInputOutput,
        initialState {| components := [a; b; c]; flows := Some [ab] |}).
Proof. split; vm_compute; reflexivity. Qed.

(** ** C3: running Smart Join twice *)

Lemma priorityOf_range (c : Component) : 1 <= priorityOf c <= 3.
Proof.
  unfold priorityOf. destruct (getComponentCategory c) as [[]|]; simpl; lia.
Qed.

Lemma priority_Input (c : Component) : priorityOf c = 1 -> hasCategory Input c = true.
Proof.
  unfold priorityOf, hasCategory.
  destruct (getComponentCategory c) as [[]|]; simpl; intros; (reflexivity || lia).
Qed.

Lemma priority_Output (c : Component) : priorityOf c = 3 -> hasCategory Output c = true.
Proof.
  unfold priorityOf, hasCategory.
  destruct (getComponentCategory c) as [[]|]; simpl; intros; (reflexivity || lia).
Qed.

Lemma connectionExists_outgoing (existing : list Flow) (a b : Component) :
  connectionExists existing a b = true -> hasOutgoing existing (comp_id a) = true.
Proof.
  unfold connectionExists, hasOutgoing. rewrite !existsb_exists.
  intros [f [Hin H]]. apply andb_true_iff in H. exists f. tauto.
Qed.

(** On the automatic path every consecutive pair is connected: the single
    Input is first, the single Output last, and a candidate has no outgoing
    flow that could already be the one to create. *)
Lemma newFlows_chain (existing : list Flow) (l : list Component) :
  StronglySorted (fun a b => lex_le (nodeKey a) (nodeKey b)) l ->
  (List.length (filter (hasCategory Input) l) <= 1)%nat ->
  (List.length (filter (hasCategory Output) l) <= 1)%nat ->
  (forall c, In c l -> hasOutgoing existing (comp_id c) = false) ->
  newFlows existing l = chain l.
Proof.
  induction l as [|a r IH]; [reflexivity|].
  intros HS Hi Ho Hout.
  destruct r as [|b r']; [reflexivity|].
  inversion HS as [|? ? HSr Hall]; subst.
  assert (Hab : priorityOf a <= priorityOf b).
  { inversion Hall as [|? ? Hk _]; subst. unfold lex_le, nodeKey in Hk.
    simpl in Hk. lia. }
  pose proof (priorityOf_range a) as Ra. pose proof (priorityOf_range b) as Rb.
  assert (Hb : hasCategory Input b = false).
  { destruct (hasCategory Input b) eqn:E; [|reflexivity].
    pose proof (priority_of_category _ _ E) as Pb. simpl in Pb.
    assert (Ea : hasCategory Input a = true) by (apply priority_Input; lia).
    simpl in Hi. rewrite Ea, E in Hi. simpl in Hi. lia. }
  assert (Ha : hasCategory Output a = false).
  { destruct (hasCategory Output a) eqn:E; [|reflexivity].
    pose proof (priority_of_category _ _ E) as Pa. simpl in Pa.
    assert (Eb : hasCategory Output b = true) by (apply priority_Output; lia).
    simpl in Ho. rewrite E, Eb in Ho. simpl in Ho. lia. }
  assert (Hc : connectionExists existing a b = false).
  { destruct (connectionExists existing a b) eqn:E; [|reflexivity].
    apply connectionExists_outgoing in E.
    rewrite (Hout a (or_introl eq_refl)) in E. discriminate. }
  change (newFlows existing (a :: b :: r')) with
    (if hasCategory Input b then newFlows existing (b :: r')
     else if hasCategory Output a then newFlows existing (b :: r')
     else if connectionExists existing a b then newFlows existing (b :: r')
     else mainFlow a b :: newFlows existing (b :: r')).
  rewrite Hb, Ha, Hc.
  change (chain (a :: b :: r')) with (mainFlow a b :: chain (b :: r')).
  f_equal. apply IH.
  - assumption.
  - simpl in Hi. destruct (hasCategory Input a); simpl in *; lia.
  - simpl in Ho. destruct (hasCategory Output a); simpl in *; lia.
  - intros c Hc'. apply Hout. right. assumption.
Qed.

Lemma chain_leaves_one (fs : list Flow) (l : list Component) :
  (forall f, In f (chain l) -> In f fs) ->
  (List.length (filter (fun c => negb (hasOutgoing fs (comp_id c))) l) <= 1)%nat.
Proof.
  induction l as [|a r IH]; intros Hsub; [simpl; lia|].
  destruct r as [|b r']; [simpl; destruct (negb _); simpl; lia|].
  change (chain (a :: b :: r')) with (mainFlow a b :: chain (b :: r')) in Hsub.
  assert (Ha : hasOutgoing fs (comp_id a) = true).
  { unfold hasOutgoing. apply existsb_exists. exists (mainFlow a b).
    split; [apply Hsub; left; reflexivity | simpl; apply String.eqb_refl]. }
  change (filter (fun c => negb (hasOutgoing fs (comp_id c))) (a :: b :: r'))
    with (if negb (hasOutgoing fs (comp_id a))
          then a :: filter (fun c => negb (hasOutgoing fs (comp_id c))) (b :: r')
          else filter (fun c => negb (hasOutgoing fs (comp_id c))) (b :: r')).
  rewrite Ha. simpl negb. cbv iota. apply IH.
  intros f Hf. apply Hsub. right. assumption.
Qed.

Lemma hasOutgoing_app (a b : list Flow) (i : string) :
  hasOutgoing (a ++ b) i = (hasOutgoing a i || hasOutgoing b i)%bool.
Proof. unfold hasOutgoing. apply existsb_app. Qed.

Lemma filter_filter {A} (p q : A -> bool) (l : list A) :
  filter (fun x => (p x && q x)%bool) l = filter q (filter p l).
Proof.
  induction l as [|x r IH]; [reflexivity|]. simpl.
  destruct (p x); simpl; [destruct (q x)|]; rewrite IH; reflexivity.
Qed.

Lemma filter_perm_length {A} (p : A -> bool) (l l' : list A) :
  Permutation l l' -> List.length (filter p l) = List.length (filter p l').
Proof.
  induction 1; simpl.
  - reflexivity.
  - destruct (p x); simpl; congruence.
  - destruct (p x), (p y); reflexivity.
  - congruence.
Qed.

(** After a successful run at most one candidate is left. *)
Lemma candidates_after_success (j : Job) :
  isAmbiguous (sortedNodes j) = false ->
  singleInputOutput (sortedNodes j) = true ->
  let created := newFlows (flowsOf j) (sortedNodes j) in
  let j' := {| components := components j;
               flows := Some (flowsOf j ++ created) |} in
  (List.length (availableNodes j') <= 1)%nat.
Proof.
  intros Hamb Hsingle created j'.
  apply andb_true_iff in Hsingle. destruct Hsingle as [Hi Ho].
  apply Nat.eqb_eq in Hi, Ho.
  assert (Hcr : created = chain (sortedNodes j)).
  { apply newFlows_chain.
    - apply sortedNodes_sorted.
    - lia.
    - lia.
    - intros c Hc.
      assert (Hav : In c (availableNodes j))
        by (eapply Permutation_in; [apply sortedNodes_perm | exact Hc]).
      unfold availableNodes in Hav. apply filter_In in Hav.
      destruct Hav as [_ Hav]. now apply negb_true_iff in Hav. }
  unfold availableNodes, j'. simpl components. unfold flowsOf at 1. simpl flows.
  erewrite filter_ext.
  2:{ intros c. rewrite hasOutgoing_app, negb_orb. reflexivity. }
  rewrite filter_filter.
  fold (availableNodes j).
  rewrite (filter_perm_length _ (Permutation_sym (sortedNodes_perm j))).
  apply chain_leaves_one. rewrite Hcr. auto.
Qed.

Lemma handleSmartJoin_insufficient (st : EditorState) (j : Job) :
  job st = Some j -> noComponents j = false ->
  (List.length (availableNodes j) <= 1)%nat ->
  handleSmartJoin st = (InsufficientCandidates, warn st insufficientWarning).
Proof.
  intros Hj Hn Hlen. rewrite (handleSmartJoin_eq _ Hj), Hn.
  assert (H : Nat.ltb (List.length (availableNodes j)) 2 = true)
    by (apply Nat.ltb_lt; lia).
  rewrite H. reflexivity.
Qed.

(** The exit taken and the job committed depend on the job alone. *)
Lemma handleSmartJoin_by_job (st1 st2 : EditorState) :
  job st1 = job st2 ->
  fst (handleSmartJoin st1) = fst (handleSmartJoin st2)
  /\ job (snd (handleSmartJoin st1)) = job (snd (handleSmartJoin st2)).
Proof.
  intros H. destruct (job st2) as [j|] eqn:Hj.
  - rewrite (handleSmartJoin_eq st1 H), (handleSmartJoin_eq st2 Hj).
    destruct (noComponents j); [simpl; split; congruence|].
    destruct (Nat.ltb _ 2); [simpl; split; congruence|].
    destruct (isAmbiguous _); [simpl; split; congruence|].
    destruct (singleInputOutput _); [|simpl; split; congruence].
    destruct (newFlows _ _); simpl; split; congruence.
  - unfold handleSmartJoin. rewrite H, Hj. simpl. split; congruence.
Qed.

(** The "no new connections" exit is never taken. *)
Lemma handleSmartJoin_never_noNew (st : EditorState) :
  fst (handleSmartJoin st) <> NoNewConnections.
Proof.
  destruct (job st) as [j|] eqn:Hj.
  2:{ unfold handleSmartJoin. rewrite Hj. discriminate. }
  rewrite (handleSmartJoin_eq _ Hj).
  destruct (noComponents j); [discriminate|].
  destruct (Nat.ltb _ 2) eqn:Hlen; [discriminate|].
  destruct (isAmbiguous _) eqn:Hamb; [discriminate|].
  destruct (singleInputOutput _) eqn:Hs; [|discriminate].
  destruct (newFlows _ _) eqn:Hnew; [|discriminate].
  exfalso.
  pose proof Hs as Hs'.
  apply andb_true_iff in Hs. destruct Hs as [Hi Ho]. apply Nat.eqb_eq in Hi, Ho.
  rewrite newFlows_chain in Hnew.
  - apply Nat.ltb_ge in Hlen. rewrite <- sortedNodes_length in Hlen.
    destruct (sortedNodes j) as [|a [|b r]]; simpl in Hlen; try lia.
    discriminate.
  - apply sortedNodes_sorted.
  - lia.
  - lia.
  - intros c Hc.
    assert (Hav : In c (availableNodes j))
      by (eapply Permutation_in; [apply sortedNodes_perm | exact Hc]).
    unfold availableNodes in Hav. apply filter_In in Hav.
    destruct Hav as [_ Hav]. now apply negb_true_iff in Hav.
Qed.

(** On an Input and an Output node without flows the first run connects
    them; the second run finds one candidate and warns that at least two
    are required. *)
Lemma C3_second_run_counterexample :
  fst (handleSmartJoin (initialState readWriteJob))
    = Success [ {| flow_name := "main"; flow_from := "tFileInputDelimited_1";
                   flow_to := "tFileOutputDelimited_2"; flow_type := "flow" |} ]
  /\ fst (handleSmartJoin (snd (handleSmartJoin (initialState readWriteJob))))
     = InsufficientCandidates
  /\ ~ secondRunIsNoOp (initialState readWriteJob).
Proof.
  split; [vm_compute; reflexivity|].
  split; [vm_compute; reflexivity|].
  intros [_ [H _]]. vm_compute in H. discriminate.
Qed.

(** C3, amended. A second run of Smart Join right after a first one leaves
    the job of the first run, and so its flows, unchanged and never
    succeeds. When the first run created flows the second leaves by the
    insufficient-candidates exit with its warning; otherwise it leaves by
    the exit the first run took. The "no new connections" exit is taken by
    neither. *)
Theorem C3_second_run (st : EditorState) :
  let st1 := snd (handleSmartJoin st) in
  let st2 := snd (handleSmartJoin st1) in
  job st2 = job st1
  /\ (forall created, fst (handleSmartJoin st1) <> Success created)
  /\ (forall created, fst (handleSmartJoin st) = Success created ->
        fst (handleSmartJoin st1) = InsufficientCandidates
        /\ smartJoinWarning st2 = insufficientWarning
        /\ showSmartJoinModal st2 = true)
  /\ ((forall created, fst (handleSmartJoin st) <> Success created) ->
        fst (handleSmartJoin st1) = fst (handleSmartJoin st))
  /\ fst (handleSmartJoin st) <> NoNewConnections
  /\ fst (handleSmartJoin st1) <> NoNewConnections.
Proof.
  intros st1 st2. unfold st2. clear st2.
  assert (Hcases :
    (job st1 = job st
     /\ (forall created, fst (handleSmartJoin st) <> Success created))
    \/ (exists created, fst (handleSmartJoin st) = Success created)
       /\ handleSmartJoin st1 = (InsufficientCandidates, warn st1 insufficientWarning)).
  { unfold st1.
    destruct (handleSmartJoin_job st)
      as [[Hsame Hn]|[j [cr [Hj [Heq [Hcr [Hne [Hnc [Hamb Hs]]]]]]]]].
    - left. split; assumption.
    - right. split; [exists cr; rewrite Heq; reflexivity|].
      rewrite Heq. simpl snd.
      eapply handleSmartJoin_insufficient.
      + reflexivity.
      + exact Hnc.
      + rewrite Hcr. apply candidates_after_success; assumption. }
  destruct Hcases as [[Hsame Hn]|[[cr Hcr] Hsecond]].
  - destruct (handleSmartJoin_by_job st1 st Hsame) as [Hout Hjob].
    assert (Hkeep : job (snd (handleSmartJoin st)) = job st) by exact Hsame.
    split; [unfold st1 in *; congruence|].
    split; [intros created; rewrite Hout; apply Hn|].
    split; [intros created Hc; exfalso; exact (Hn created Hc)|].
    split; [intros _; exact Hout|].
    split; apply handleSmartJoin_never_noNew.
  - rewrite Hsecond. simpl.
    split; [reflexivity|].
    split; [discriminate|].
    split; [intros created _; repeat split|].
    split; [intros Hn; exfalso; exact (Hn cr Hcr)|].
    split; [apply handleSmartJoin_never_noNew | discriminate].
Qed.

(** ** C6: the exits that connect nothing *)

(** Two Transform candidates and nothing else: not ambiguous, no single
    Input and Output, and the handler returns the state it was given, the
    warning dialog still closed. *)
Lemma C6_silent_counterexample :
  List.length (availableNodes twoTransformsJob) = 2%nat
  /\ isAmbiguous (sortedNodes twoTransformsJob) = false
  /\ singleInputOutput (sortedNodes twoTransformsJob) = false
  /\ handleSmartJoin (initialState twoTransformsJob)
     = (NotSingleInputOutput, initialState twoTransformsJob)
  /\ showSmartJoinModal (initialState twoTransformsJob) = false
  /\ ~ abortsWithWarning (initialState twoTransformsJob).
Proof.
  split; [vm_compute; reflexivity|].
  split; [vm_compute; reflexivity|].
  split; [vm_compute; reflexivity|].
  split; [vm_compute; reflexivity|].
  split; [vm_compute; reflexivity|].
  intros H.
  destruct (H twoTransformsJob eq_refl) as [Hshow _].
  - right. split; vm_compute; reflexivity.
  - vm_compute in Hshow. discriminate.
Qed.

(** C6, amended. When the candidates are fewer than two, or the set is not
    ambiguous and does not hold exactly one Input and one Output candidate,
    Smart Join leaves the job (nodes and edges) as it was. With fewer than
    two candidates on a job that has components it shows the warning that
    at least two unconnected components are required; on a job without
    components, and on a non-ambiguous set of two or more candidates
    without exactly one Input and one Output, it returns without any
    warning, the whole state unchanged. *)
Theorem C6_abort_paths (st : EditorState) (j : Job) :
  job st = Some j ->
  (List.length (availableNodes j) < 2)%nat
  \/ (isAmbiguous (sortedNodes j) = false
      /\ singleInputOutput (sortedNodes j) = false) ->
  job (snd (handleSmartJoin st)) = job st
  /\ ((List.length (availableNodes j) < 2)%nat -> components j <> [] ->
        handleSmartJoin st = (InsufficientCandidates, warn st insufficientWarning)
        /\ smartJoinWarning (snd (handleSmartJoin st)) = insufficientWarning
        /\ showSmartJoinModal (snd (handleSmartJoin st)) = true)
  /\ (components j = [] -> handleSmartJoin st = (NothingToJoin, st))
  /\ ((2 <= List.length (availableNodes j))%nat ->
        handleSmartJoin st = (NotSingleInputOutput, st)).
Proof.
  intros Hj Hcond. rewrite (handleSmartJoin_eq _ Hj).
  assert (Hnc : noComponents j = true <-> components j = []).
  { unfold noComponents. destruct (components j); split; congruence. }
  destruct (noComponents j) eqn:Hn.
  - assert (Hnil : components j = []) by (apply Hnc; reflexivity).
    pose proof (availableNodes_nil _ Hn) as Hav.
    simpl. split; [reflexivity|].
    split; [intros _ Hne; contradiction|].
    split; [reflexivity|].
    rewrite Hav. simpl. lia.
  - assert (Hne : components j <> []) by (intros H; apply Hnc in H; discriminate).
    destruct (Nat.ltb (List.length (availableNodes j)) 2) eqn:Hlen.
    + apply Nat.ltb_lt in Hlen. simpl.
      split; [reflexivity|].
      split; [intros _ _; repeat split|].
      split; [intros H; contradiction | lia].
    + apply Nat.ltb_ge in Hlen.
      destruct Hcond as [Hlt|[Hamb Hs]]; [lia|].
      rewrite Hamb, Hs. simpl.
      split; [reflexivity|].
      split; [lia|].
      split; [intros H; contradiction | reflexivity].
Qed.

(** ** C5: the classifier *)

Section Classifier.

Lemma lower_char_noUpper (c : ascii) : JsString.is_upper (JsString.lower_char c) = false.
Proof.
  destruct c as [[] [] [] [] [] [] [] []]; reflexivity.
Qed.

Lemma toLowerCase_noUpper (s : string) : noUpper (JsString.toLowerCase s) = true.
Proof.
  induction s as [|c r IH]; [reflexivity|].
  simpl. rewrite lower_char_noUpper, IH. reflexivity.
Qed.

Lemma lowered_noUpper (o : option string) (s : string) :
  lowered o = Some s -> noUpper s = true.
Proof.
  unfold lowered. destruct o as [t|]; [|discriminate].
  destruct (JsString.truthy t); [|discriminate].
  intros H. injection H as <-. apply toLowerCase_noUpper.
Qed.

Lemma categoryKey_noUpper (c : Component) : noUpper (categoryKey c) = true.
Proof.
  assert (H : noUpper (chosenType c) = true).
  { unfold chosenType.
    destruct (lowered (comp_original_type c)) eqn:E1; [eapply lowered_noUpper; eassumption|].
    destruct (lowered (comp_type c)) eqn:E2; [eapply lowered_noUpper; eassumption|].
    reflexivity. }
  unfold categoryKey, stripLeadingT.
  destruct (_ && _)%bool; [|exact H].
  destruct (chosenType c); [reflexivity|].
  simpl in *. apply andb_true_iff in H. tauto.
Qed.

(** The category classifier normalises as the comment of line 158 says:
    the chosen string in lower case, less one leading [t] when more
    follows. *)
Lemma stripLeadingT_spec (s : string) :
  stripLeadingT s =
    match s with
    | String "t" (String c r) => String c r
    | _ => s
    end.
Proof.
  unfold stripLeadingT.
  destruct s as [|a [|c r]]; simpl.
  - reflexivity.
  - rewrite andb_false_r. destruct a as [[] [] [] [] [] [] [] []]; reflexivity.
  - destruct (Ascii.eqb a "t") eqn:E.
    + apply Ascii.eqb_eq in E. subst a. reflexivity.
    + destruct a as [[] [] [] [] [] [] [] []]; try reflexivity. discriminate.
Qed.

(** Every component gets a result, and a category unless its key is one of
    the two lower-case names every object inherits. *)
Lemma getComponentCategory_undefined (c : Component) :
  getComponentCategory c = None <->
  categoryKey c = "constructor" \/ categoryKey c = "__proto__".
Proof.
  unfold getComponentCategory, categoryOfKey, JsObject.get.
  pose proof (categoryKey_noUpper c) as Hlow.
  destruct (JsObject.own category_registry (categoryKey c)) eqn:Hown.
  - split; [discriminate|].
    intros [H|H]; rewrite H in Hown; vm_compute in Hown; discriminate.
  - destruct (existsb (String.eqb (categoryKey c)) JsObject.prototype_members) eqn:Hp.
    + split; [intros _|reflexivity].
      apply existsb_exists in Hp. destruct Hp as [m [Hin Heq]].
      apply String.eqb_eq in Heq. rewrite Heq in *.
      simpl in Hin.
      repeat (destruct Hin as [<- | Hin];
              [first [left; reflexivity | right; reflexivity
                     | vm_compute in Hlow; discriminate] | ]).
      contradiction.
    + split; [discriminate|].
      intros [H|H]; rewrite H in Hp; vm_compute in Hp; discriminate.
Qed.

(** A key that neither registry lists, and that is not an inherited name,
    falls back to Transform and to a single "main" port on each side. *)
Lemma unrecognized_key_defaults (k : string) :
  existsb (String.eqb k) JsObject.prototype_members = false ->
  (JsObject.own category_registry k = None -> categoryOfKey k = Some Transform)
  /\ (JsObject.own port_registry k = None -> portsOfKey k = PortInfo defaultPorts).
Proof.
  intros Hp. unfold categoryOfKey, portsOfKey, JsObject.get.
  split; intros ->; rewrite Hp; reflexivity.
Qed.

(** "tFileInputDelimited" and "fileinputdelimited" classify alike, as
    [original_type] and as [type]. *)
Lemma talend_prefix_classifies_alike (i : string) :
  let a := mkComponent i (Some "tFileInputDelimited") None in
  let b := mkComponent i (Some "fileinputdelimited") None in
  let a' := mkComponent i None (Some "tFileInputDelimited") in
  let b' := mkComponent i None (Some "fileinputdelimited") in
  getComponentCategory a = Some Input
  /\ getComponentCategory b = Some Input
  /\ getComponentCategory a' = Some Input
  /\ getComponentCategory b' = Some Input
  /\ getComponentRegistryInfo a = getComponentRegistryInfo b
  /\ getComponentRegistryInfo a' = getComponentRegistryInfo b'.
Proof. cbv zeta. repeat (split; [vm_compute; reflexivity|]). vm_compute; reflexivity. Qed.

(** C5. The port lookup does not normalise the way the category lookup
    does. On [original_type = "file_input_delimited"] the category key is
    the string itself, a registered Input with ports [[] -> ["main"]], but
    [getComponentRegistryInfo] removes the [t] of "input", looks up
    "file_inpu_delimited" and answers the default ports. A type given only
    as [type = "tJoin"] keeps its leading [t] in the port lookup, so the
    ports of "join" are not found either. And the key "constructor" is
    recognised by neither registry, yet yields no category and no port
    lists. *)
Theorem C5_port_lookup_normalisation :
  let c := mkComponent "n_1" (Some "file_input_delimited") None in
  let d := mkComponent "n_2" None (Some "tJoin") in
  let e := mkComponent "n_3" None (Some "constructor") in
  (categoryKey c = "file_input_delimited"
   /\ getComponentCategory c = Some Input
   /\ portsOfKey (categoryKey c) = PortInfo {| inputs := []; outputs := ["main"] |}
   /\ componentKey c = "file_inpu_delimited"
   /\ getComponentRegistryInfo c = PortInfo defaultPorts)
  /\ (categoryKey d = "join"
      /\ portsOfKey (categoryKey d)
         = PortInfo {| inputs := ["main"; "lookup"]; outputs := ["main"; "reject"] |}
      /\ componentKey d = "tjoin"
      /\ getComponentRegistryInfo d = PortInfo defaultPorts)
  /\ (JsObject.own category_registry (categoryKey e) = None
      /\ JsObject.own port_registry (componentKey e) = None
      /\ getComponentCategory e = None
      /\ getComponentRegistryInfo e = PrototypeMember).
Proof. vm_compute. repeat split. Qed.

End Classifier.

(** ** C7 and C10: collision avoidance *)

Section CollisionAvoidance.






Lemma setAt_length {A} (i : nat) (v : A) (l : list A) :
  List.length (setAt i v l) = List.length l.
Proof.
  revert i. induction l as [|x r IH]; intros i; [destruct i; reflexivity|].
  destruct i; simpl; [reflexivity | rewrite IH; reflexivity].
Qed.


Lemma nth_error_setAt_neq {A} (i k : nat) (v : A) (l : list A) :
  i <> k -> nth_error (setAt i v l) k = nth_error l k.
Proof.
  revert i k. induction l as [|x r IH]; intros i k H.
  - destruct i; reflexivity.
  - destruct i, k; simpl; try reflexivity; [contradiction | apply IH; auto].
Qed.






Lemma boxesOverlap_spec (a b : AdjustedComponent) :
  boxesOverlap a b = true <->
  (pos_x (renderPosition a) < pos_x (renderPosition b) + NODE_WIDTH
   /\ pos_x (renderPosition a) + NODE_WIDTH > pos_x (renderPosition b))
  /\ (pos_y (renderPosition a) < boxBottom b
      /\ boxBottom a > pos_y (renderPosition b)).
Proof.
  unfold boxesOverlap, boxBottom. cbv zeta.
  rewrite !andb_true_iff, !Z.ltb_lt, !Z.gtb_gt. reflexivity.
Qed.


(** The pass is one sweep: with a third node a later step can move the
    first of two nodes at one position back under the second. *)
Example residual_overlap_of_three :
  let at_ (i : string) (y : Z) :=
    sameTypeNode i (Some "tMap") None {| pos_x := 0; pos_y := y |} true in
  exists a b c,
    applyCollisionAvoidance [at_ "tMap_1" 0; at_ "tMap_2" 0; at_ "tMap_3" (-50)]
      = [a; b; c]
    /\ pos_y (renderPosition a) = 70
    /\ pos_y (renderPosition b) = 120
    /\ boxesOverlap a b = true.
Proof. vm_compute. do 3 eexists. repeat split. Qed.


End CollisionAvoidance.

(** ** C8: the manual connection protocol *)

Section ManualConnection.

Lemma existingConnection_spec (j : Job) (src tgt : string) :
  existsb (fun flow => (String.eqb (flow_from flow) src
                        && String.eqb (flow_to flow) tgt)%bool) (flowsOf j) = true
  <-> alreadyConnected j src tgt.
Proof.
  unfold alreadyConnected. rewrite existsb_exists.
  split; intros [f [Hin H]]; exists f; (split; [assumption|]).
  - apply andb_true_iff in H. destruct H as [H1 H2].
    split; now apply String.eqb_eq.
  - destruct H as [H1 H2]. apply andb_true_iff. split; now apply String.eqb_eq.
Qed.

Lemma appended_job_differs (j : Job) (f : Flow) :
  Some {| components := components j; flows := Some (flowsOf j ++ [f]) |} <> Some j.
Proof.
  destruct j as [cs [fs|]]; unfold flowsOf; simpl; intros H.
  - assert (Hlen : List.length (fs ++ [f]) = List.length fs) by congruence.
    rewrite length_app in Hlen. simpl in Hlen. lia.
  - discriminate.
Qed.

(** C8. Pressing an anchor changes the state only when the anchor is an
    output anchor, and then it starts a drag from that node and port;
    pressing an input anchor changes nothing, so from the idle state a drag
    is on after the press exactly when the anchor was an output anchor. Releasing over an input
    anchor during a drag commits the job with one more flow, from the drag
    source to the target, of type "flow" and named after the source port,
    or "main" when there is none, exactly when the target is another node
    and no flow already joins that source to that target; otherwise the
    state is returned as it was. Releasing over an anchor that is not an
    input anchor changes nothing, and the release handler of the document
    ends the drag without touching the job. *)
Theorem C8_manual_connection :
  (forall st componentId port anchorType x y,
      (anchorType <> "output" ->
         handleAnchorMouseDown st componentId port anchorType x y = st)
      /\ (anchorType = "output" ->
            connectionDragState (handleAnchorMouseDown st componentId port anchorType x y)
              = Dragging componentId port x y
            /\ job (handleAnchorMouseDown st componentId port anchorType x y) = job st))
  /\ (forall st componentId port x y,
        handleAnchorMouseDown st componentId port "input" x y = st)
  /\ (forall st componentId port anchorType x y,
        isDragging (connectionDragState st) = false ->
        (isDragging (connectionDragState
                       (handleAnchorMouseDown st componentId port anchorType x y))
           = true
         <-> anchorType = "output"))
  /\ (forall st j src sourcePort cx cy target targetPort,
        job st = Some j ->
        connectionDragState st = Dragging src sourcePort cx cy ->
        let st' := handleAnchorMouseUp st target targetPort "input" in
        let newFlow := {| flow_name := portNameOf sourcePort; flow_from := src;
                          flow_to := target; flow_type := "flow" |} in
        (src <> target /\ ~ alreadyConnected j src target ->
           st' = updateJob st {| components := components j;
                                 flows := Some (flowsOf j ++ [newFlow]) |})
        /\ (src = target \/ alreadyConnected j src target -> st' = st)
        /\ (job st' <> job st <-> src <> target /\ ~ alreadyConnected j src target))
  /\ (portNameOf None = "main" /\ portNameOf (Some EmptyString) = "main"
      /\ forall p, p <> EmptyString -> portNameOf (Some p) = p)
  /\ (forall st target targetPort anchorType,
        anchorType <> "input" \/ connectionDragState st = NotDragging ->
        handleAnchorMouseUp st target targetPort anchorType = st)
  /\ (forall st, connectionDragState (handleMouseUp st) = NotDragging
                 /\ job (handleMouseUp st) = job st).
Proof.
  split; [|split; [|split; [|split; [|split; [|split]]]]].
  - intros st componentId port anchorType x y. unfold handleAnchorMouseDown.
    destruct (String.eqb anchorType "output") eqn:E; simpl.
    + apply String.eqb_eq in E. split; [contradiction | auto].
    + apply String.eqb_neq in E. split; [reflexivity | contradiction].
  - reflexivity.
  - intros st componentId port anchorType x y Hidle. unfold handleAnchorMouseDown.
    destruct (String.eqb anchorType "output") eqn:E; simpl.
    + apply String.eqb_eq in E. tauto.
    + apply String.eqb_neq in E. rewrite Hidle. split; [discriminate | contradiction].
  - intros st j src sourcePort cx cy target targetPort Hj Hd st' newFlow.
    assert (Hst' : st' =
              if String.eqb src target then st
              else if existsb (fun flow => (String.eqb (flow_from flow) src
                                && String.eqb (flow_to flow) target)%bool) (flowsOf j)
              then st
              else updateJob st {| components := components j;
                                   flows := Some (flowsOf j ++ [newFlow]) |}).
    { unfold st', handleAnchorMouseUp. rewrite Hd, Hj. reflexivity. }
    rewrite Hst'. clear Hst'.
    destruct (String.eqb src target) eqn:Eself.
    { apply String.eqb_eq in Eself.
      split; [tauto|]. split; [reflexivity|]. split; [congruence | tauto]. }
    apply String.eqb_neq in Eself.
    destruct (existsb _ (flowsOf j)) eqn:Edup.
    { apply existingConnection_spec in Edup.
      split; [tauto|]. split; [reflexivity|]. split; [congruence | tauto]. }
    assert (Hnew : ~ alreadyConnected j src target).
    { intros H. apply existingConnection_spec in H. congruence. }
    split; [reflexivity|]. split; [tauto|].
    split; [tauto|]. intros _. simpl. rewrite Hj. apply appended_job_differs.
  - split; [reflexivity|]. split; [reflexivity|].
    intros p Hp. destruct p; [contradiction | reflexivity].
  - intros st target targetPort anchorType H. unfold handleAnchorMouseUp.
    destruct (connectionDragState st); [reflexivity|].
    destruct H as [H|H]; [|discriminate].
    apply String.eqb_neq in H. rewrite H. reflexivity.
  - intros st. split; reflexivity.
Qed.

End ManualConnection.

(** ** C9: referential integrity *)

Section Integrity.


Lemma deleted_flows_In (fs : list Flow) (nodeId : string) (f : Flow) :
  In f (filter (fun f => (negb (String.eqb (flow_from f) nodeId)
                          && negb (String.eqb (flow_to f) nodeId))%bool) fs)
  <-> In f fs /\ flow_from f <> nodeId /\ flow_to f <> nodeId.
Proof.
  rewrite filter_In, andb_true_iff, !negb_true_iff, !String.eqb_neq. reflexivity.
Qed.

Lemma deleted_components_In (cs : list Component) (nodeId : string) (c : Component) :
  In c (filter (fun c => negb (String.eqb (comp_id c) nodeId)) cs)
  <-> In c cs /\ comp_id c <> nodeId.
Proof.
  rewrite filter_In, negb_true_iff, String.eqb_neq. reflexivity.
Qed.




End Integrity.

(** ** The theorems at sample graphs *)

(** Scenario C of the specification: two Input candidates and one Output
    candidate start the guided mode with both inputs in [inputNodes]. *)
Example guided_mode_entry_of_two_inputs :
  job (initialState twoInputsJob) = Some twoInputsJob
  /\ fst (handleSmartJoin (initialState twoInputsJob)) = AmbiguousTopology
  /\ inputNodes (guidedJoinData (snd (handleSmartJoin (initialState twoInputsJob))))
     = [ node "tFileInputDelimited_1" "tFileInputDelimited";
         node "tOracleInput_2" "tOracleInput" ]
  /\ finalOutput (guidedJoinData (snd (handleSmartJoin (initialState twoInputsJob))))
     = Some "tFileOutputDelimited_3"
  /\ job (snd (handleSmartJoin (initialState twoInputsJob))) = Some twoInputsJob.
Proof.
  split; [reflexivity|].
  destruct (@guided_mode_entry (initialState twoInputsJob) twoInputsJob eq_refl)
    as [[_ Hiff] [Hdata _]].
  assert (Hamb : fst (handleSmartJoin (initialState twoInputsJob)) = AmbiguousTopology).
  { apply Hiff. right. left. vm_compute. lia. }
  split; [exact Hamb|].
  destruct (Hdata Hamb)
    as [_ [_ [Hin [_ [Hout [_ [_ [_ [_ [_ [Hfinal [_ Hjob]]]]]]]]]]]].
  split; [rewrite Hin; vm_compute; reflexivity|].
  split; [|exact Hjob].
  apply (Hfinal (node "tFileOutputDelimited_3" "tFileOutputDelimited")).
  rewrite Hout. vm_compute. reflexivity.
Defined.

Lemma C2_auto_connector_witness :
  let f := {| flow_name := "main"; flow_from := "tFileInputDelimited_1";
              flow_to := "tFileOutputDelimited_2"; flow_type := "flow" |} in
  In f (newFlows [] (sortedNodes readWriteJob))
  /\ exists i src tgt,
       nth_error (sortedNodes readWriteJob) i = Some src
       /\ nth_error (sortedNodes readWriteJob) (S i) = Some tgt
       /\ flow_from f = comp_id src /\ flow_to f = comp_id tgt
       /\ flow_name f = "main" /\ flow_type f = "flow"
       /\ hasCategory Input tgt = false
       /\ hasCategory Output src = false
       /\ forall e, In e [] ->
            ~ (flow_from e = flow_from f /\ flow_to e = flow_to f).
Proof.
  intros f.
  assert (Hin : In f (newFlows [] (sortedNodes readWriteJob)))
    by (vm_compute; left; reflexivity).
  split; [exact Hin|].
  exact (proj1 C2_auto_connector [] (sortedNodes readWriteJob) f Hin).
Defined.

Lemma C3_second_run_witness :
  fst (handleSmartJoin (initialState readWriteJob))
    = Success [ {| flow_name := "main"; flow_from := "tFileInputDelimited_1";
                   flow_to := "tFileOutputDelimited_2"; flow_type := "flow" |} ]
  /\ fst (handleSmartJoin (snd (handleSmartJoin (initialState readWriteJob))))
     = InsufficientCandidates
  /\ smartJoinWarning
       (snd (handleSmartJoin (snd (handleSmartJoin (initialState readWriteJob)))))
     = insufficientWarning
  /\ showSmartJoinModal
       (snd (handleSmartJoin (snd (handleSmartJoin (initialState readWriteJob)))))
     = true.
Proof.
  assert (Hfirst : fst (handleSmartJoin (initialState readWriteJob))
    = Success [ {| flow_name := "main"; flow_from := "tFileInputDelimited_1";
                   flow_to := "tFileOutputDelimited_2"; flow_type := "flow" |} ])
    by (vm_compute; reflexivity).
  split; [exact Hfirst|].
  destruct (C3_second_run (initialState readWriteJob)) as [_ [_ [Hsucc _]]].
  exact (Hsucc _ Hfirst).
Defined.


Lemma C6_abort_paths_witness :
  job (initialState singleNodeJob) = Some singleNodeJob
  /\ (List.length (availableNodes singleNodeJob) < 2)%nat
  /\ job (snd (handleSmartJoin (initialState singleNodeJob))) = Some singleNodeJob
  /\ smartJoinWarning (snd (handleSmartJoin (initialState singleNodeJob)))
     = insufficientWarning
  /\ showSmartJoinModal (snd (handleSmartJoin (initialState singleNodeJob))) = true.
Proof.
  assert (Hlen : (List.length (availableNodes singleNodeJob) < 2)%nat)
    by (vm_compute; lia).
  split; [reflexivity|]. split; [exact Hlen|].
  destruct (@C6_abort_paths (initialState singleNodeJob) singleNodeJob eq_refl
              (or_introl Hlen)) as [Hjob [Hwarn _]].
  split; [exact Hjob|].
  assert (Hne : components singleNodeJob <> []) by discriminate.
  destruct (Hwarn Hlen Hne) as [_ [Hw Hs]].
  split; assumption.
Defined.


Lemma C8_manual_connection_witness :
  let st := setConnectionDragState (initialState readWriteJob)
              (Dragging "tFileInputDelimited_1" (Some "main") 0 0) in
  job st = Some readWriteJob
  /\ "tFileInputDelimited_1" <> "tFileOutputDelimited_2"
  /\ ~ alreadyConnected readWriteJob "tFileInputDelimited_1" "tFileOutputDelimited_2"
  /\ handleAnchorMouseUp st "tFileOutputDelimited_2" (Some "main") "input"
     = updateJob st
         {| components := components readWriteJob;
            flows := Some (flowsOf readWriteJob ++
                           [ {| flow_name := portNameOf (Some "main");
                                flow_from := "tFileInputDelimited_1";
                                flow_to := "tFileOutputDelimited_2";
                                flow_type := "flow" |} ]) |}.
Proof.
  intros st.
  assert (Hne : "tFileInputDelimited_1" <> "tFileOutputDelimited_2") by discriminate.
  assert (Hnew : ~ alreadyConnected readWriteJob "tFileInputDelimited_1"
                     "tFileOutputDelimited_2").
  { intros [f [Hin _]]. exact Hin. }
  split; [reflexivity|]. split; [exact Hne|]. split; [exact Hnew|].
  destruct C8_manual_connection as [_ [_ [_ [Hrelease _]]]].
  destruct (@Hrelease st readWriteJob "tFileInputDelimited_1" (Some "main") 0 0
              "tFileOutputDelimited_2" (Some "main") eq_refl eq_refl)
    as [Hcommit _].
  exact (Hcommit (conj Hne Hnew)).
Defined.

Lemma connectedJob_integrity : stateIntegrity (initialState connectedJob).
Proof.
  intros j Hj. injection Hj as <-. intros f [<-|[]].
  split; [left; reflexivity | right; left; reflexivity].
Defined.




(** * Further properties *)

(** ** Smart Join: when it succeeds and what it builds *)

Lemma hasCategory_functional (c : Component) (c1 c2 : Category) :
  hasCategory c1 c = true -> hasCategory c2 c = true -> c1 = c2.
Proof.
  unfold hasCategory. destruct (getComponentCategory c) as [cat|]; [|discriminate].
  destruct cat, c1, c2; simpl; congruence.
Qed.

Lemma filter_nil_Forall {A} (p : A -> bool) (l : list A) :
  filter p l = [] -> Forall (fun x => p x = false) l.
Proof.
  induction l as [|x r IH]; simpl; intros H; [constructor|].
  destruct (p x) eqn:E; [discriminate|]. constructor; auto.
Qed.

Lemma filter_nonempty_In {A} (p : A -> bool) (l : list A) :
  (0 < List.length (filter p l))%nat -> exists x, In x l /\ p x = true.
Proof.
  destruct (filter p l) as [|x r] eqn:E; simpl; [lia|]. intros _.
  assert (H : In x (filter p l)) by (rewrite E; left; reflexivity).
  apply filter_In in H. exists x. exact H.
Qed.

Lemma StronglySorted_last {A} (R : A -> A -> Prop) (l : list A) (z : A) :
  StronglySorted R (l ++ [z]) -> forall y, In y l -> R y z.
Proof.
  induction l as [|x r IH]; intros HS y Hy; [destruct Hy|].
  simpl in HS. inversion HS as [|? ? HSr Hall]; subst.
  destruct Hy as [<-|Hy].
  - rewrite Forall_forall in Hall. apply Hall, in_or_app. right. left. reflexivity.
  - apply IH; assumption.
Qed.

(** A sorted candidate list with one Input and one Output starts with the
    Input, ends with the Output and has neither in between. *)
Lemma sorted_single_ends (l : list Component) :
  StronglySorted (fun a b => lex_le (nodeKey a) (nodeKey b)) l ->
  List.length (filter (hasCategory Input) l) = 1%nat ->
  List.length (filter (hasCategory Output) l) = 1%nat ->
  (2 <= List.length l)%nat ->
  exists inp mids out,
    l = inp :: mids ++ [out]
    /\ hasCategory Input inp = true
    /\ hasCategory Output out = true
    /\ Forall (fun c => hasCategory Input c = false
                        /\ hasCategory Output c = false) mids.
Proof.
  intros HS Hi Ho Hlen.
  destruct l as [|a r]; [simpl in Hlen; lia|].
  assert (Hr : r <> []) by (destruct r; [simpl in Hlen; lia | discriminate]).
  destruct (exists_last Hr) as [mids [out ->]].
  exists a, mids, out.
  assert (Ha : hasCategory Input a = true).
  { destruct (filter_nonempty_In (hasCategory Input) (a :: mids ++ [out]))
      as [x [Hx Hcx]]; [lia|].
    destruct Hx as [<-|Hx]; [exact Hcx|].
    inversion HS as [|? ? _ Hall]; subst. rewrite Forall_forall in Hall.
    specialize (Hall x Hx). unfold lex_le, nodeKey in Hall. simpl in Hall.
    pose proof (priority_of_category _ _ Hcx) as Px. simpl in Px.
    pose proof (priorityOf_range a). apply priority_Input. lia. }
  assert (Hout : hasCategory Output out = true).
  { destruct (filter_nonempty_In (hasCategory Output) (a :: mids ++ [out]))
      as [y [Hy Hcy]]; [lia|].
    assert (Hy' : In y (a :: mids) \/ y = out).
    { destruct Hy as [<-|Hy]; [left; left; reflexivity|].
      apply in_app_or in Hy. destruct Hy as [Hy|[<-|[]]];
        [left; right; assumption | right; reflexivity]. }
    destruct Hy' as [Hyl | ->]; [|exact Hcy].
    pose proof (@StronglySorted_last _ _ (a :: mids) out HS y Hyl) as Hle.
    unfold lex_le, nodeKey in Hle. simpl in Hle.
    pose proof (priority_of_category _ _ Hcy) as Py. simpl in Py.
    pose proof (priorityOf_range out). apply priority_Output. lia. }
  split; [reflexivity|]. split; [exact Ha|]. split; [exact Hout|].
  assert (HaO : hasCategory Output a = false).
  { destruct (hasCategory Output a) eqn:E; [|reflexivity].
    pose proof (hasCategory_functional _ _ _ Ha E). discriminate. }
  assert (HoI : hasCategory Input out = false).
  { destruct (hasCategory Input out) eqn:E; [|reflexivity].
    pose proof (hasCategory_functional _ _ _ Hout E). discriminate. }
  simpl in Hi, Ho. rewrite Ha in Hi. rewrite HaO in Ho.
  rewrite filter_app in Hi, Ho. simpl in Hi, Ho.
  rewrite HoI in Hi. rewrite Hout in Ho.
  rewrite app_nil_r in Hi. simpl in Hi.
  rewrite length_app in Ho. simpl in Ho.
  assert (Hmi : filter (hasCategory Input) mids = [])
    by (destruct (filter (hasCategory Input) mids); [reflexivity | simpl in Hi; lia]).
  assert (Hmo : filter (hasCategory Output) mids = [])
    by (destruct (filter (hasCategory Output) mids); [reflexivity | simpl in Ho; lia]).
  apply filter_nil_Forall in Hmi, Hmo.
  rewrite Forall_forall in *. intros c Hc. split; [apply Hmi | apply Hmo]; assumption.
Qed.

Lemma chain_length (l : list Component) :
  List.length (chain l) = (List.length l - 1)%nat.
Proof.
  induction l as [|a r IH]; [reflexivity|].
  destruct r as [|b r']; [reflexivity|].
  change (chain (a :: b :: r')) with (mainFlow a b :: chain (b :: r')).
  simpl List.length in *. rewrite IH. lia.
Qed.

Lemma candidates_no_outgoing (j : Job) (c : Component) :
  In c (sortedNodes j) -> hasOutgoing (flowsOf j) (comp_id c) = false.
Proof.
  intros Hc.
  assert (Hav : In c (availableNodes j))
    by (eapply Permutation_in; [apply sortedNodes_perm | exact Hc]).
  unfold availableNodes in Hav. apply filter_In in Hav.
  destruct Hav as [_ Hav]. now apply negb_true_iff in Hav.
Qed.

Lemma singleInputOutput_iff (j : Job) :
  singleInputOutput (sortedNodes j) = true <->
  List.length (filter (hasCategory Input) (availableNodes j)) = 1%nat
  /\ List.length (filter (hasCategory Output) (availableNodes j)) = 1%nat.
Proof.
  unfold singleInputOutput.
  rewrite !sortedNodes_count, andb_true_iff, !Nat.eqb_eq. reflexivity.
Qed.

Lemma success_creates_chain (st : EditorState) (j : Job) (created : list Flow) :
  job st = Some j ->
  fst (handleSmartJoin st) = Success created ->
  created = chain (sortedNodes j)
  /\ isAmbiguous (sortedNodes j) = false
  /\ singleInputOutput (sortedNodes j) = true
  /\ Nat.ltb (List.length (availableNodes j)) 2 = false.
Proof.
  intros Hj. rewrite (handleSmartJoin_eq _ Hj).
  destruct (noComponents j); [discriminate|].
  destruct (Nat.ltb _ 2) eqn:Hlen; [discriminate|].
  destruct (isAmbiguous _) eqn:Hamb; [discriminate|].
  destruct (singleInputOutput _) eqn:Hs; [|discriminate].
  destruct (newFlows _ _) as [|f r] eqn:Hnew; [discriminate|].
  simpl. intros H. injection H as <-.
  split; [|auto].
  rewrite <- Hnew.
  pose proof Hs as Hs'. apply andb_true_iff in Hs'. destruct Hs' as [Hi Ho].
  apply Nat.eqb_eq in Hi, Ho.
  apply newFlows_chain; [apply sortedNodes_sorted | lia | lia |].
  intros c Hc. apply candidates_no_outgoing. exact Hc.
Qed.

(** X1. Smart Join connects exactly when there are two to five candidates
    with one Input and one Output among them. It then creates one flow per
    consecutive pair of the ordered candidates, one fewer than there are
    candidates, along a list that starts with the Input candidate, ends
    with the Output candidate and has neither kind in between. *)
Theorem X1_smartJoin_success (st : EditorState) (j : Job) :
  job st = Some j ->
  ((exists created, fst (handleSmartJoin st) = Success created) <->
     (2 <= List.length (availableNodes j) <= 5)%nat
     /\ List.length (filter (hasCategory Input) (availableNodes j)) = 1%nat
     /\ List.length (filter (hasCategory Output) (availableNodes j)) = 1%nat)
  /\ (forall created, fst (handleSmartJoin st) = Success created ->
        created = chain (sortedNodes j)
        /\ List.length created = (List.length (availableNodes j) - 1)%nat
        /\ exists inp mids out,
             sortedNodes j = inp :: mids ++ [out]
             /\ hasCategory Input inp = true
             /\ hasCategory Output out = true
             /\ Forall (fun c => hasCategory Input c = false
                                 /\ hasCategory Output c = false) mids).
Proof.
  intros Hj.
  assert (Hfwd : forall created, fst (handleSmartJoin st) = Success created ->
            created = chain (sortedNodes j)
            /\ (2 <= List.length (availableNodes j) <= 5)%nat
            /\ List.length (filter (hasCategory Input) (availableNodes j)) = 1%nat
            /\ List.length (filter (hasCategory Output) (availableNodes j)) = 1%nat).
  { intros created H.
    destruct (success_creates_chain _ Hj H) as [Hc [Hamb [Hs Hlen]]].
    apply singleInputOutput_iff in Hs. apply Nat.ltb_ge in Hlen.
    assert (Hna : ~ ((5 < List.length (availableNodes j))%nat
       \/ (1 < List.length (filter (hasCategory Input) (availableNodes j)))%nat
       \/ (1 < List.length (filter (hasCategory Output) (availableNodes j)))%nat))
      by (rewrite <- isAmbiguous_iff; congruence).
    split; [exact Hc|]. split; [lia | exact Hs]. }
  split.
  - split.
    + intros [created H]. destruct (Hfwd _ H) as [_ H']. exact H'.
    + intros [[Hlo Hhi] [Hi Ho]].
      pose proof (handleSmartJoin_never_noNew st) as Hnn.
      rewrite (handleSmartJoin_eq _ Hj) in *.
      assert (Hnc : noComponents j = false).
      { destruct (noComponents j) eqn:E; [|reflexivity].
        rewrite (availableNodes_nil _ E) in Hlo. simpl in Hlo. lia. }
      assert (Hlt : Nat.ltb (List.length (availableNodes j)) 2 = false)
        by (apply Nat.ltb_ge; lia).
      assert (Hamb : isAmbiguous (sortedNodes j) = false).
      { destruct (isAmbiguous (sortedNodes j)) eqn:E; [|reflexivity].
        apply isAmbiguous_iff in E. lia. }
      assert (Hs : singleInputOutput (sortedNodes j) = true)
        by (apply singleInputOutput_iff; split; assumption).
      rewrite Hnc, Hlt, Hamb, Hs in *.
      destruct (newFlows (flowsOf j) (sortedNodes j)) as [|f r].
      * exfalso. apply Hnn. reflexivity.
      * exists (f :: r). reflexivity.
  - intros created H. destruct (Hfwd _ H) as [Hc [Hlen [Hi Ho]]].
    split; [exact Hc|]. split.
    + rewrite Hc, chain_length, sortedNodes_length. reflexivity.
    + apply sorted_single_ends.
      * apply sortedNodes_sorted.
      * rewrite sortedNodes_count. exact Hi.
      * rewrite sortedNodes_count. exact Ho.
      * rewrite sortedNodes_length. lia.
Qed.

Lemma X1_smartJoin_success_witness :
  job (initialState readWriteJob) = Some readWriteJob
  /\ exists created, fst (handleSmartJoin (initialState readWriteJob)) = Success created.
Proof.
  split; [reflexivity|].
  apply (proj1 (@X1_smartJoin_success (initialState readWriteJob) readWriteJob eq_refl)).
  vm_compute. repeat split; lia.
Defined.

(** ** Smart Join: what it leaves alone *)

(** X2. Whatever exit it takes, Smart Join leaves the selection and the
    connection drag as they were, keeps the components of the job, and
    keeps every existing flow in place: the flows after it are the flows
    before it followed by the created ones, if any. Without a job it
    returns the state unchanged. *)
Theorem X2_smartJoin_frame (st : EditorState) :
  selectedNodeId (snd (handleSmartJoin st)) = selectedNodeId st
  /\ connectionDragState (snd (handleSmartJoin st)) = connectionDragState st
  /\ (job st = None -> handleSmartJoin st = (NothingToJoin, st))
  /\ (forall j, job st = Some j ->
        exists j' added,
          job (snd (handleSmartJoin st)) = Some j'
          /\ components j' = components j
          /\ flowsOf j' = flowsOf j ++ added).
Proof.
  destruct (job st) as [j|] eqn:Hj.
  - rewrite (handleSmartJoin_eq _ Hj).
    assert (Hsame : exists j' added, Some j = Some j' /\ components j' = components j
                      /\ flowsOf j' = flowsOf j ++ added).
    { exists j, []. rewrite app_nil_r. auto. }
    destruct (noComponents j); simpl;
      [repeat split; try assumption; try discriminate;
       intros j0 H0; injection H0 as <-; rewrite Hj; exact Hsame|].
    destruct (Nat.ltb _ 2); simpl;
      [repeat split; try assumption; try discriminate;
       intros j0 H0; injection H0 as <-; rewrite Hj; exact Hsame|].
    destruct (isAmbiguous _); simpl;
      [repeat split; try assumption; try discriminate;
       intros j0 H0; injection H0 as <-; rewrite Hj; exact Hsame|].
    destruct (singleInputOutput _); simpl;
      [|repeat split; try assumption; try discriminate;
        intros j0 H0; injection H0 as <-; rewrite Hj; exact Hsame].
    destruct (newFlows _ _) as [|f r]; simpl;
      [repeat split; try assumption; try discriminate;
       intros j0 H0; injection H0 as <-; rewrite Hj; exact Hsame|].
    repeat split; try discriminate.
    intros j0 H0. injection H0 as <-.
    eexists. exists (f :: r). split; [reflexivity|]. split; reflexivity.
  - unfold handleSmartJoin. rewrite Hj. simpl.
    repeat split; try assumption. intros j H. discriminate.
Qed.

Lemma X2_smartJoin_frame_witness :
  exists j' added,
    job (snd (handleSmartJoin (initialState connectedJob))) = Some j'
    /\ components j' = components connectedJob
    /\ flowsOf j' = flowsOf connectedJob ++ added.
Proof.
  destruct (X2_smartJoin_frame (initialState connectedJob)) as [_ [_ [_ H]]].
  exact (H connectedJob eq_refl).
Defined.

(** ** Unique ids, no parallel flows *)

(** Keys that are unique stay unique among the items a filter keeps. *)
Lemma kept_keys_unique {Item Key} (key : Item -> Key) (keep : Item -> bool)
    (items : list Item) (unique : NoDup (map key items)) :
  NoDup (map key (filter keep items)).
Proof.
  induction items as [|x r IH]; simpl in *; [constructor|].
  inversion unique as [|? ? Hfresh Hrest]; subst.
  destruct (keep x); simpl; [|auto].
  constructor; [|auto].
  intros Hin. apply Hfresh. apply in_map_iff in Hin. destruct Hin as [y [Hy Hin]].
  apply filter_In in Hin. apply in_map_iff. exists y. tauto.
Qed.

Lemma chain_from (l : list Component) :
  map flow_from (chain l) = map comp_id (removelast l).
Proof.
  induction l as [|a r IH]; [reflexivity|].
  destruct r as [|b r']; [reflexivity|].
  change (chain (a :: b :: r')) with (mainFlow a b :: chain (b :: r')).
  change (removelast (a :: b :: r')) with (a :: removelast (b :: r')).
  change (map flow_from (mainFlow a b :: chain (b :: r')))
    with (comp_id a :: map flow_from (chain (b :: r'))).
  change (map comp_id (a :: removelast (b :: r')))
    with (comp_id a :: map comp_id (removelast (b :: r'))).
  rewrite IH. reflexivity.
Qed.

Lemma removelast_In {A} (l : list A) (x : A) : In x (removelast l) -> In x l.
Proof.
  induction l as [|a r IH]; [intros []|].
  destruct r as [|b r']; [intros []|].
  change (removelast (a :: b :: r')) with (a :: removelast (b :: r')).
  intros [<-|H]; [left; reflexivity | right; apply IH; exact H].
Qed.

Lemma NoDup_map_removelast {A B} (f : A -> B) (l : list A) :
  NoDup (map f l) -> NoDup (map f (removelast l)).
Proof.
  destruct l as [|a r]; [intros; constructor|].
  assert (Hne : a :: r <> []) by discriminate.
  rewrite (app_removelast_last a Hne) at 1.
  rewrite map_app. apply NoDup_app_remove_r.
Qed.

Lemma chain_pairs_fresh (j : Job) :
  NoDup (nodeIds j) -> NoDup (flowPairs j) ->
  NoDup (map (fun f => (flow_from f, flow_to f))
             (flowsOf j ++ chain (sortedNodes j))).
Proof.
  intros Hids Hpairs. rewrite map_app. apply NoDup_app.
  - exact Hpairs.
  - apply (NoDup_map_inv fst). rewrite map_map. simpl.
    change (map (fun x : Flow => flow_from x) (chain (sortedNodes j)))
      with (map flow_from (chain (sortedNodes j))).
    rewrite chain_from. apply NoDup_map_removelast.
    apply (Permutation_NoDup (l := map comp_id (availableNodes j))).
    + apply Permutation_map, Permutation_sym, sortedNodes_perm.
    + apply kept_keys_unique. exact Hids.
  - intros [s t] Hold Hnew.
    apply in_map_iff in Hold. destruct Hold as [e [He Hine]].
    apply in_map_iff in Hnew. destruct Hnew as [f [Hf Hinf]].
    injection He as Hes Het. injection Hf as Hfs Hft.
    assert (Hsrc : In (flow_from f) (map comp_id (removelast (sortedNodes j)))).
    { rewrite <- chain_from. apply in_map. exact Hinf. }
    apply in_map_iff in Hsrc. destruct Hsrc as [c [Hc Hinc]].
    apply removelast_In in Hinc.
    pose proof (candidates_no_outgoing _ _ Hinc) as Hno.
    rewrite hasOutgoing_false in Hno. apply (Hno e Hine). congruence.
Qed.

(** X3. A job in which node ids are unique and no two flows join the same
    source to the same target stays so under node deletion, canvas reset,
    Smart Join and the release of a manual connection, whatever their
    arguments. *)
Theorem X3_no_parallel_flows (st : EditorState) (op : GraphOperation) :
  stateWellFormed st -> stateWellFormed (perform op st).
Proof.
  intros HW j' Hj'. destruct op as [nodeId| | |t p a]; simpl in Hj'.
  - unfold handleDeleteNode in Hj'. destruct (job st) as [j|] eqn:Hj; [|congruence].
    destruct (negb (JsString.truthy nodeId)); [apply HW; congruence|].
    simpl in Hj'. injection Hj' as <-. destruct (HW j Hj) as [Hids Hpairs].
    split.
    + unfold nodeIds. simpl. apply kept_keys_unique. exact Hids.
    + unfold flowPairs, flowsOf at 1. simpl. apply kept_keys_unique. exact Hpairs.
  - unfold handleClearCanvas in Hj'. destruct (job st) as [j|] eqn:Hj; [|congruence].
    simpl in Hj'. injection Hj' as <-. split; constructor.
  - destruct (handleSmartJoin_job st)
      as [[Hsame _]|[j [cr [Hj [Heq [Hcr _]]]]]].
    + apply HW. congruence.
    + assert (Hchain : cr = chain (sortedNodes j)).
      { apply (@success_creates_chain st j cr Hj). rewrite Heq. reflexivity. }
      rewrite Heq in Hj'. simpl in Hj'. injection Hj' as <-.
      destruct (HW j Hj) as [Hids Hpairs]. split; [exact Hids|].
      unfold flowPairs, flowsOf at 1. simpl flows. rewrite Hchain.
      apply chain_pairs_fresh; assumption.
  - unfold handleAnchorMouseUp in Hj'.
    destruct (connectionDragState st) as [|s sp cx cy]; [apply HW; assumption|].
    destruct (negb (String.eqb a "input")); [apply HW; assumption|].
    destruct (String.eqb s t); [apply HW; assumption|].
    destruct (job st) as [j|] eqn:Hj; [|congruence].
    destruct (existsb _ (flowsOf j)) eqn:Edup; [apply HW; assumption|].
    simpl in Hj'. injection Hj' as <-.
    destruct (HW j Hj) as [Hids Hpairs]. split; [exact Hids|].
    change (NoDup (map (fun f => (flow_from f, flow_to f))
                       (flowsOf j ++ [ {| flow_name := portNameOf sp; flow_from := s;
                                          flow_to := t; flow_type := "flow" |} ]))).
    rewrite map_app.
    apply NoDup_app; [exact Hpairs | simpl; constructor; [intros [] | constructor] |].
    intros [s' t'] Hold [Hnew|[]]. simpl in Hnew. injection Hnew as <- <-.
    apply in_map_iff in Hold. destruct Hold as [e [He Hine]]. injection He as Hes Het.
    assert (Hex : existsb (fun flow => (String.eqb (flow_from flow) s
                              && String.eqb (flow_to flow) t)%bool) (flowsOf j) = true).
    { apply existsb_exists. exists e. split; [exact Hine|].
      apply andb_true_iff. split; apply String.eqb_eq; assumption. }
    congruence.
Qed.

Lemma connectedJob_wellFormed : stateWellFormed (initialState connectedJob).
Proof.
  intros j Hj. injection Hj as <-. split.
  - unfold nodeIds. simpl. constructor.
    + intros [H|[]]. discriminate.
    + constructor; [intros [] | constructor].
  - unfold flowPairs. simpl. constructor; [intros [] | constructor].
Defined.

Lemma X3_no_parallel_flows_witness :
  stateWellFormed (initialState connectedJob)
  /\ stateWellFormed (perform SmartJoin (initialState connectedJob)).
Proof.
  split; [exact connectedJob_wellFormed|].
  exact (X3_no_parallel_flows SmartJoin connectedJob_wellFormed).
Defined.

(** ** Smart Join does not depend on the order of the components *)

Lemma sorted_permutation_unique {A} (R : A -> A -> Prop) (l1 : list A) :
  (forall x, R x x) ->
  forall l2,
  StronglySorted R l1 -> StronglySorted R l2 -> Permutation l1 l2 ->
  (forall a b, In a l1 -> In b l1 -> R a b -> R b a -> a = b) ->
  l1 = l2.
Proof.
  intros Hrefl. induction l1 as [|a r1 IH]; intros l2 H1 H2 HP Hanti.
  - symmetry. apply Permutation_nil. exact HP.
  - destruct l2 as [|b r2].
    + apply Permutation_sym, Permutation_nil in HP. discriminate.
    + inversion H1 as [|? ? H1r H1all]; subst.
      inversion H2 as [|? ? H2r H2all]; subst.
      rewrite Forall_forall in H1all, H2all.
      assert (Hb : In b (a :: r1))
        by (eapply Permutation_in; [apply Permutation_sym, HP | left; reflexivity]).
      assert (Ha : In a (b :: r2))
        by (eapply Permutation_in; [exact HP | left; reflexivity]).
      assert (Rab : R a b) by (destruct Hb as [<-|Hb]; [apply Hrefl | apply H1all, Hb]).
      assert (Rba : R b a) by (destruct Ha as [<-|Ha]; [apply Hrefl | apply H2all, Ha]).
      assert (Heq : a = b) by (apply Hanti; [left; reflexivity | exact Hb | | ]; assumption).
      subst b. f_equal. apply IH; try assumption.
      * eapply Permutation_cons_inv. exact HP.
      * intros x y Hx Hy. apply Hanti; right; assumption.
Qed.

Lemma filter_Permutation {A} (p : A -> bool) (l l' : list A) :
  Permutation l l' -> Permutation (filter p l) (filter p l').
Proof.
  induction 1; simpl.
  - constructor.
  - destruct (p x); [apply perm_skip|]; assumption.
  - destruct (p x), (p y); try apply Permutation_refl. apply perm_swap.
  - eapply perm_trans; eassumption.
Qed.

Lemma availableNodes_Permutation (j j' : Job) :
  Permutation (components j) (components j') -> flowsOf j = flowsOf j' ->
  Permutation (availableNodes j) (availableNodes j').
Proof.
  intros HP Hf. unfold availableNodes. rewrite Hf. apply filter_Permutation, HP.
Qed.

(** X4. When no two candidates share category priority and numeric suffix
    (the suffix as the number [parseInt] returns: two suffixes beyond 2^53
    that round to one double are shared), the ordered candidate list, and
    with it the exit Smart Join takes and the flows it creates, is the same
    for every arrangement of the same components in the job. *)
Theorem X4_order_independence (j j' : Job) :
  Permutation (components j) (components j') ->
  flowsOf j = flowsOf j' ->
  (forall a b, In a (availableNodes j) -> In b (availableNodes j) ->
     nodeKey a = nodeKey b -> a = b) ->
  sortedNodes j = sortedNodes j'
  /\ forall st st', job st = Some j -> job st' = Some j' ->
       fst (handleSmartJoin st) = fst (handleSmartJoin st').
Proof.
  intros HP Hf Hkeys.
  pose proof (@availableNodes_Permutation j j' HP Hf) as Hav.
  assert (Hsorted : sortedNodes j = sortedNodes j').
  { apply sorted_permutation_unique
      with (R := fun a b => lex_le (nodeKey a) (nodeKey b)).
    - intros x. apply lex_le_refl.
    - apply sortedNodes_sorted.
    - apply sortedNodes_sorted.
    - eapply perm_trans; [apply sortedNodes_perm|].
      eapply perm_trans; [exact Hav | apply Permutation_sym, sortedNodes_perm].
    - intros a b Ha Hb Hab Hba. apply Hkeys.
      + eapply Permutation_in; [apply sortedNodes_perm | exact Ha].
      + eapply Permutation_in; [apply sortedNodes_perm | exact Hb].
      + unfold lex_le in Hab, Hba.
        destruct (nodeKey a) as [p1 s1], (nodeKey b) as [p2 s2]. simpl in *.
        f_equal; lia. }
  split; [exact Hsorted|].
  intros st st' Hj Hj'.
  rewrite (handleSmartJoin_eq _ Hj), (handleSmartJoin_eq _ Hj').
  assert (Hnc : noComponents j = noComponents j').
  { unfold noComponents. pose proof (Permutation_length HP) as Hl.
    destruct (components j), (components j'); simpl in Hl; congruence. }
  rewrite <- Hnc, <- (Permutation_length Hav), <- Hsorted, <- Hf.
  destruct (noComponents j); [reflexivity|].
  destruct (Nat.ltb _ 2); [reflexivity|].
  destruct (isAmbiguous _); [reflexivity|].
  destruct (singleInputOutput _); [|reflexivity].
  destruct (newFlows _ _); reflexivity.
Qed.

Lemma X4_order_independence_witness :
  let j' := {| components := rev (components readWriteJob); flows := None |} in
  sortedNodes readWriteJob = sortedNodes j'.
Proof.
  intros j'.
  refine (proj1 (@X4_order_independence readWriteJob j' _ eq_refl _)).
  - apply Permutation_rev.
  - intros a b Ha Hb. simpl in Ha, Hb.
    destruct Ha as [<-|[<-|[]]], Hb as [<-|[<-|[]]]; intros H;
      try reflexivity; vm_compute in H; discriminate.
Defined.

(** ** Deleting nodes *)

Lemma filter_comm {A} (p q : A -> bool) (l : list A) :
  filter p (filter q l) = filter q (filter p l).
Proof.
  rewrite <- !filter_filter. apply filter_ext. intros x. apply andb_comm.
Qed.

Lemma filter_idem {A} (p : A -> bool) (l : list A) :
  filter p (filter p l) = filter p l.
Proof.
  rewrite <- filter_filter. apply filter_ext. intros x. destruct (p x); reflexivity.
Qed.

Lemma handleDeleteNode_eq (st : EditorState) (j : Job) (nodeId : string) :
  job st = Some j -> JsString.truthy nodeId = true ->
  handleDeleteNode st nodeId =
  {| job := Some {| components :=
                      filter (fun c => negb (String.eqb (comp_id c) nodeId))
                             (components j);
                    flows :=
                      Some (filter
                              (fun f => (negb (String.eqb (flow_from f) nodeId)
                                         && negb (String.eqb (flow_to f) nodeId))%bool)
                              (flowsOf j)) |};
     selectedNodeId := None;
     connectionDragState := connectionDragState st;
     showSmartJoinModal := showSmartJoinModal st;
     smartJoinWarning := smartJoinWarning st;
     guidedJoinData := guidedJoinData st |}.
Proof.
  intros Hj Ht. unfold handleDeleteNode. rewrite Hj, Ht. reflexivity.
Qed.

Lemma handleDeleteNode_falsy (st : EditorState) (nodeId : string) :
  JsString.truthy nodeId = false -> handleDeleteNode st nodeId = st.
Proof.
  intros Ht. unfold handleDeleteNode. rewrite Ht. destruct (job st); reflexivity.
Qed.

(** X5. Node deletions commute, and deleting the same id a second time
    changes nothing: the state after deleting [a] then [b] is the state
    after deleting [b] then [a], and deleting [a] twice gives the state
    after deleting it once. *)
Theorem X5_delete_commutes (st : EditorState) (a b : string) :
  handleDeleteNode (handleDeleteNode st a) b
    = handleDeleteNode (handleDeleteNode st b) a
  /\ handleDeleteNode (handleDeleteNode st a) a = handleDeleteNode st a.
Proof.
  destruct (job st) as [j|] eqn:Hj.
  2:{ assert (H : forall x, handleDeleteNode st x = st)
        by (intros x; unfold handleDeleteNode; rewrite Hj; reflexivity).
      repeat rewrite H. split; reflexivity. }
  destruct (JsString.truthy a) eqn:Ta; destruct (JsString.truthy b) eqn:Tb.
  - split.
    + rewrite (@handleDeleteNode_eq st j a Hj Ta), (@handleDeleteNode_eq st j b Hj Tb).
      erewrite !handleDeleteNode_eq by (try reflexivity; assumption).
      unfold flowsOf. simpl.
      f_equal. f_equal. f_equal; [apply filter_comm | f_equal; apply filter_comm].
    + rewrite (@handleDeleteNode_eq st j a Hj Ta).
      erewrite handleDeleteNode_eq by (try reflexivity; assumption).
      unfold flowsOf. simpl.
      f_equal. f_equal. f_equal; [apply filter_idem | f_equal; apply filter_idem].
  - rewrite (@handleDeleteNode_falsy _ b Tb), (@handleDeleteNode_falsy _ b Tb).
    split; [reflexivity|].
    rewrite (@handleDeleteNode_eq st j a Hj Ta).
    erewrite handleDeleteNode_eq by (try reflexivity; assumption).
    unfold flowsOf. simpl.
    f_equal. f_equal. f_equal; [apply filter_idem | f_equal; apply filter_idem].
  - rewrite !(@handleDeleteNode_falsy _ a Ta). split; reflexivity.
  - rewrite !(@handleDeleteNode_falsy _ a Ta), !(@handleDeleteNode_falsy _ b Tb).
    split; reflexivity.
Qed.

(** ** Selecting a node and pressing Delete *)

Lemma truthy_iff (s : string) : JsString.truthy s = true <-> s <> EmptyString.
Proof. destruct s; simpl; split; congruence. Qed.

(** X6. A key press changes the state only when the key is Delete or
    Backspace, a node is selected and the focus is not in an INPUT or a
    TEXTAREA. After a click on a node, such a key press commits the job
    without that node and its flows and clears the selection, and any
    further key press changes nothing. *)
Theorem X6_keyboard_delete :
  (forall st key tagName,
      tagName = "INPUT" \/ tagName = "TEXTAREA"
      \/ (key <> "Delete" /\ key <> "Backspace")
      \/ selectedNodeId st = None ->
      handleKeyDown st key tagName = st)
  /\ (forall hasCallback st j nodeId key tagName,
        job st = Some j -> nodeId <> EmptyString ->
        key = "Delete" \/ key = "Backspace" ->
        tagName <> "INPUT" -> tagName <> "TEXTAREA" ->
        let st1 := handleKeyDown (fst (handleNodeClick hasCallback st nodeId))
                                 key tagName in
        st1 = handleDeleteNode st nodeId
        /\ selectedNodeId st1 = None
        /\ (forall j1, job st1 = Some j1 ->
              ~ In nodeId (nodeIds j1)
              /\ forall f, In f (flowsOf j1) ->
                   flow_from f <> nodeId /\ flow_to f <> nodeId)
        /\ forall key' tagName', handleKeyDown st1 key' tagName' = st1).
Proof.
  split.
  - intros st key tagName H. unfold handleKeyDown.
    destruct H as [->|[->|[[H1 H2]|H]]].
    + simpl. rewrite andb_false_r. reflexivity.
    + simpl. rewrite andb_false_r. reflexivity.
    + apply String.eqb_neq in H1, H2. rewrite H1, H2. reflexivity.
    + rewrite H. destruct (_ && _)%bool; reflexivity.
  - intros hasCallback st j nodeId key tagName Hj Hne Hkey Ht1 Ht2 st1.
    assert (Htr : JsString.truthy nodeId = true) by (apply truthy_iff; exact Hne).
    assert (Hk : (String.eqb key "Delete" || String.eqb key "Backspace")%bool = true).
    { destruct Hkey as [->| ->]; reflexivity. }
    assert (Htag : negb (existsb (String.eqb tagName) ["INPUT"; "TEXTAREA"]) = true).
    { apply String.eqb_neq in Ht1, Ht2. simpl. rewrite Ht1, Ht2. reflexivity. }
    assert (Hst1 : st1 = handleDeleteNode st nodeId).
    { unfold st1, handleKeyDown. rewrite Hk, Htag. simpl. rewrite Htr.
      rewrite (@handleDeleteNode_eq st j nodeId Hj Htr).
      unfold handleDeleteNode. simpl. rewrite Hj, Htr. reflexivity. }
    rewrite Hst1. rewrite (@handleDeleteNode_eq st j nodeId Hj Htr).
    split; [reflexivity|]. split; [reflexivity|]. split.
    + simpl. intros j1 H1. injection H1 as <-. split.
      * unfold nodeIds. simpl. rewrite in_map_iff. intros [c [Hid Hc]].
        apply deleted_components_In in Hc. tauto.
      * intros f Hf. unfold flowsOf in Hf at 1. simpl in Hf.
        apply deleted_flows_In in Hf. tauto.
    + intros key' tagName'. unfold handleKeyDown. simpl.
      destruct (_ && _)%bool; reflexivity.
Qed.

Lemma X6_keyboard_delete_witness :
  handleKeyDown
    (fst (handleNodeClick true (initialState connectedJob) "tFileInputDelimited_1"))
    "Delete" "DIV"
  = handleDeleteNode (initialState connectedJob) "tFileInputDelimited_1".
Proof.
  refine (proj1 (proj2 X6_keyboard_delete true (initialState connectedJob) connectedJob
                   "tFileInputDelimited_1" "Delete" "DIV" eq_refl _ _ _ _));
    try discriminate.
  left. reflexivity.
Defined.

(** ** New-project detection *)

(** X7. A job created by the wizard always counts as a new project. A job
    that was not counts as one exactly when it has components and no
    flows; then every component is a Smart Join candidate. Once Smart Join
    has succeeded, or a manual connection has been committed, it no longer
    counts as a new project; after a canvas reset only a wizard job does. *)
Theorem X7_new_project :
  (forall hasFeeds hasReconId j,
      hasFeeds = true \/ hasReconId = true ->
      isNewProject hasFeeds hasReconId (Some j) = true)
  /\ (forall j, isNewProject false false (Some j) = true <->
                components j <> [] /\ flowsOf j = [])
  /\ (forall j, isNewProject false false (Some j) = true ->
                availableNodes j = components j)
  /\ (forall st created,
        fst (handleSmartJoin st) = Success created ->
        isNewProject false false (job (snd (handleSmartJoin st))) = false)
  /\ (forall st target targetPort anchorType,
        job (handleAnchorMouseUp st target targetPort anchorType) <> job st ->
        isNewProject false false
          (job (handleAnchorMouseUp st target targetPort anchorType)) = false)
  /\ (forall hasFeeds hasReconId st,
        job st <> None ->
        isNewProject hasFeeds hasReconId (job (handleClearCanvas st))
        = (hasFeeds || hasReconId)%bool).
Proof.
  assert (Hiff : forall j, isNewProject false false (Some j) = true <->
                   components j <> [] /\ flowsOf j = []).
  { intros j. unfold isNewProject, flowsOf. simpl.
    destruct (components j) as [|c cs]; simpl.
    - split; [discriminate | intros [H _]; contradiction].
    - destruct (flows j) as [[|f fs]|]; simpl; split; try discriminate;
        try (intros [_ H]; discriminate); intros _; split; (discriminate || reflexivity). }
  split; [|split; [exact Hiff|split; [|split; [|split]]]].
  - intros hasFeeds hasReconId j [-> | ->]; unfold isNewProject;
      [reflexivity | rewrite orb_true_r; reflexivity].
  - intros j H. apply Hiff in H. destruct H as [_ Hf].
    unfold availableNodes. rewrite Hf.
    induction (components j) as [|c cs IH]; simpl; [reflexivity | f_equal; exact IH].
  - intros st created H.
    destruct (handleSmartJoin_job st) as [[_ Hn]|[j [cr [Hj [Heq [_ [Hne _]]]]]]].
    + exfalso. exact (Hn created H).
    + rewrite Heq. cbn [snd job updateJob].
      match goal with |- ?t = false => destruct t eqn:E end; [|reflexivity].
      apply Hiff in E. destruct E as [_ E]. unfold flowsOf in E at 1. simpl in E.
      apply app_eq_nil in E. destruct E as [_ E]. contradiction.
  - intros st target targetPort anchorType Hchg.
    unfold handleAnchorMouseUp in *.
    destruct (connectionDragState st) as [|s sp cx cy]; [contradiction|].
    destruct (negb (String.eqb anchorType "input")); [contradiction|].
    destruct (String.eqb s target); [contradiction|].
    destruct (job st) as [j|] eqn:Hj; [|rewrite Hj in Hchg; contradiction].
    destruct (existsb _ (flowsOf j)); [rewrite Hj in Hchg; contradiction|].
    cbn [job updateJob].
    match goal with |- ?t = false => destruct t eqn:E end; [|reflexivity].
    apply Hiff in E. destruct E as [_ E]. unfold flowsOf in E at 1. simpl in E.
    apply app_eq_nil in E. destruct E as [_ E]. discriminate.
  - intros hasFeeds hasReconId st Hjob. unfold handleClearCanvas.
    destruct (job st); [|contradiction]. simpl. rewrite orb_false_r. reflexivity.
Qed.

Lemma X7_new_project_witness :
  isNewProject false false (Some readWriteJob) = true
  /\ availableNodes readWriteJob = components readWriteJob.
Proof.
  assert (H : isNewProject false false (Some readWriteJob) = true) by reflexivity.
  split; [exact H|].
  exact (proj1 (proj2 (proj2 X7_new_project)) readWriteJob H).
Defined.

(** ** Collision avoidance: what a pass can and cannot do *)

Section PassInvariant.
Variable R : AdjustedComponent -> AdjustedComponent -> Prop.
Hypothesis R_refl : forall r, R r r.
Hypothesis R_trans : forall r1 r2 r3, R r1 r2 -> R r2 r3 -> R r1 r3.
Hypothesis R_resolve : forall nodeA nodeB,
  R nodeA (fst (resolvePair nodeA nodeB)) /\ R nodeB (snd (resolvePair nodeA nodeB)).

Lemma Forall2_R_refl l : Forall2 R l l.
Proof. induction l; constructor; [apply R_refl | assumption]. Qed.

Lemma Forall2_R_trans l1 l2 l3 :
  Forall2 R l1 l2 -> Forall2 R l2 l3 -> Forall2 R l1 l3.
Proof.
  intros H. revert l3. induction H; intros l3 H3; inversion H3; subst; constructor.
  - eapply R_trans; eassumption.
  - auto.
Qed.

Lemma setAt_R (l : list AdjustedComponent) (i : nat) (old v : AdjustedComponent) :
  nth_error l i = Some old -> R old v -> Forall2 R l (setAt i v l).
Proof.
  revert i. induction l as [|x r IH]; intros i Hn Hs.
  - destruct i; discriminate.
  - destruct i as [|i]; simpl in *.
    + injection Hn as ->. constructor; [assumption | apply Forall2_R_refl].
    + constructor; [apply R_refl | eapply IH; eassumption].
Qed.

Lemma adjustPair_R (adjusted : list AdjustedComponent) (i j : nat) :
  i <> j -> Forall2 R adjusted (adjustPair adjusted i j).
Proof.
  intros Hne. unfold adjustPair.
  destruct (nth_error adjusted i) as [nodeA|] eqn:Ha; [|apply Forall2_R_refl].
  destruct (nth_error adjusted j) as [nodeB|] eqn:Hb; [|apply Forall2_R_refl].
  destruct (R_resolve nodeA nodeB) as [HA HB].
  destruct (resolvePair nodeA nodeB) as [nodeA' nodeB']. simpl in HA, HB.
  apply Forall2_R_trans with (l2 := setAt i nodeA' adjusted);
    [apply setAt_R with (old := nodeA); assumption|].
  apply setAt_R with (old := nodeB); [|exact HB].
  rewrite nth_error_setAt_neq by assumption. assumption.
Qed.

Lemma innerLoop_R (i : nat) (adjusted : list AdjustedComponent) :
  Forall2 R adjusted (innerLoop i adjusted).
Proof.
  unfold innerLoop.
  generalize (List.length adjusted - S i)%nat as n. intros n.
  assert (Hjs : forall j, In j (seq (S i) n) -> i <> j)
    by (intros j Hj; apply in_seq in Hj; lia).
  revert adjusted Hjs. generalize (seq (S i) n) as js.
  induction js as [|j js IH]; intros adjusted Hjs; simpl.
  - apply Forall2_R_refl.
  - eapply Forall2_R_trans.
    + apply adjustPair_R. apply Hjs. left. reflexivity.
    + apply IH. intros k Hk. apply Hjs. right. exact Hk.
Qed.

Lemma applyCollisionAvoidance_R (comps : list Component) :
  Forall2 R (map withRenderPosition comps) (applyCollisionAvoidance comps).
Proof.
  unfold applyCollisionAvoidance.
  generalize (seq 0 (List.length (map withRenderPosition comps))) as idx.
  generalize (map withRenderPosition comps) as adjusted.
  intros adjusted idx. revert adjusted.
  induction idx as [|i idx IH]; intros adjusted; simpl.
  - apply Forall2_R_refl.
  - eapply Forall2_R_trans; [apply innerLoop_R | apply IH].
Qed.

End PassInvariant.

Lemma resolvePair_movedDown (nodeA nodeB : AdjustedComponent) :
  movedDown nodeA (fst (resolvePair nodeA nodeB))
  /\ movedDown nodeB (snd (resolvePair nodeA nodeB)).
Proof.
  unfold resolvePair, movedDown.
  destruct (boxesOverlap nodeA nodeB) eqn:Hov; [|simpl; repeat split; lia].
  apply boxesOverlap_spec in Hov. unfold boxBottom in *.
  unfold MIN_OFFSET, NODE_HEIGHT in *.
  destruct (_ >=? _); simpl; repeat split; lia.
Qed.

Lemma Forall2_In_r {A B} (P : A -> B -> Prop) (l : list A) (l' : list B) (y : B) :
  Forall2 P l l' -> In y l' -> exists x, In x l /\ P x y.
Proof.
  induction 1 as [|a b r r' Hab _ IH]; intros Hy; [destruct Hy|].
  destruct Hy as [<-|Hy].
  - exists a. split; [left; reflexivity | exact Hab].
  - destruct (IH Hy) as [x [Hx Hp]]. exists x. split; [right; exact Hx | exact Hp].
Qed.

Lemma applyCollisionAvoidance_movedDown (comps : list Component) :
  Forall2 movedDown (map withRenderPosition comps) (applyCollisionAvoidance comps).
Proof.
  apply applyCollisionAvoidance_R.
  - intros r. split; [reflexivity | apply Z.le_refl].
  - intros r1 r2 r3 [H1 H2] [H3 H4]. split; [congruence | lia].
  - apply resolvePair_movedDown.
Qed.

Lemma render_below_stored (comps : list Component) (r : AdjustedComponent) :
  In r (applyCollisionAvoidance comps) ->
  pos_y (comp_position (adj_component r)) <= pos_y (renderPosition r).
Proof.
  intros Hr.
  destruct (@Forall2_In_r _ _ _ _ _ r (applyCollisionAvoidance_movedDown comps) Hr)
    as [x [Hx [Hc Hy]]].
  apply in_map_iff in Hx. destruct Hx as [c [<- _]].
  rewrite Hc. simpl in *. exact Hy.
Qed.


(** X8. A collision-avoidance pass returns as many elements as it was
    given components, and it only ever moves a node downward: the render
    [y] of every returned element is at least the stored [y] of its
    component. *)
Theorem X8_pass_moves_down (comps : list Component) :
  List.length (applyCollisionAvoidance comps) = List.length comps
  /\ forall r, In r (applyCollisionAvoidance comps) ->
       pos_y (comp_position (adj_component r)) <= pos_y (renderPosition r).
Proof.
  split.
  - pose proof (applyCollisionAvoidance_movedDown comps) as HR.
    apply Forall2_length in HR. rewrite length_map in HR. symmetry. exact HR.
  - intros r. apply render_below_stored.
Qed.

Lemma X8_pass_moves_down_witness :
  let comps := [node "tMap_1" "tMap"; node "tMap_2" "tMap"] in
  let r := setRenderY (withRenderPosition (node "tMap_2" "tMap")) 120 in
  In r (applyCollisionAvoidance comps)
  /\ pos_y (comp_position (adj_component r)) <= pos_y (renderPosition r).
Proof.
  intros comps r.
  assert (Hr : In r (applyCollisionAvoidance comps))
    by (vm_compute; right; left; reflexivity).
  split; [exact Hr|].
  exact (proj2 (X8_pass_moves_down comps) r Hr).
Defined.

(** ** Collision avoidance: a layout without overlap *)

Lemma setAt_same {A} (i : nat) (x : A) (l : list A) :
  nth_error l i = Some x -> setAt i x l = l.
Proof.
  revert i. induction l as [|y r IH]; intros i H.
  - destruct i; discriminate.
  - destruct i as [|i]; simpl in *.
    + injection H as ->. reflexivity.
    + rewrite IH by assumption. reflexivity.
Qed.

Lemma fold_left_fixed {A I} (f : A -> I -> A) (a : A) (idx : list I) :
  (forall i, In i idx -> f a i = a) -> fold_left f idx a = a.
Proof.
  induction idx as [|i r IH]; intros H; simpl; [reflexivity|].
  rewrite (H i (or_introl eq_refl)). apply IH. intros k Hk. apply H. right. exact Hk.
Qed.

(** X9. When no two boxes drawn at the stored positions overlap, the pass
    changes nothing: every element is rendered where it is stored. *)
Theorem X9_separated_layout_unchanged (comps : list Component) :
  (forall i k a b, (i < k)%nat ->
     nth_error comps i = Some a -> nth_error comps k = Some b ->
     boxesOverlap (withRenderPosition a) (withRenderPosition b) = false) ->
  applyCollisionAvoidance comps = map withRenderPosition comps.
Proof.
  intros Hsep. unfold applyCollisionAvoidance.
  apply fold_left_fixed. intros i _. unfold innerLoop.
  apply fold_left_fixed. intros k Hk. apply in_seq in Hk.
  unfold adjustPair.
  destruct (nth_error (map withRenderPosition comps) i) as [nodeA|] eqn:Ha;
    [|reflexivity].
  destruct (nth_error (map withRenderPosition comps) k) as [nodeB|] eqn:Hb;
    [|reflexivity].
  assert (Hov : boxesOverlap nodeA nodeB = false).
  { rewrite nth_error_map in Ha, Hb.
    destruct (nth_error comps i) as [a|] eqn:Ea; [|discriminate].
    destruct (nth_error comps k) as [b|] eqn:Eb; [|discriminate].
    simpl in Ha, Hb. injection Ha as <-. injection Hb as <-.
    apply (Hsep i k); [lia | assumption | assumption]. }
  unfold resolvePair. rewrite Hov.
  rewrite (setAt_same i _ Ha). apply setAt_same. exact Hb.
Qed.

Lemma X9_separated_layout_unchanged_witness :
  let at_ (i : string) (x : Z) :=
    sameTypeNode i (Some "tMap") None {| pos_x := x; pos_y := 0 |} true in
  applyCollisionAvoidance [at_ "tMap_1" 0; at_ "tMap_2" 140]
  = map withRenderPosition [at_ "tMap_1" 0; at_ "tMap_2" 140].
Proof.
  intros at_. apply X9_separated_layout_unchanged.
  intros i k a b Hik Ha Hb.
  destruct i as [|[|i]]; destruct k as [|[|[|k]]]; simpl in Ha, Hb;
    try lia; try discriminate.
  injection Ha as <-. injection Hb as <-. reflexivity.
Defined.

(** ** Anchors after a pass *)



(** ** The drawer *)

Lemma drawer_step_invariant (s : Drawer.State) (e : Drawer.Event) :
  drawerInvariant s -> drawerInvariant (Drawer.step s e).
Proof.
  unfold drawerInvariant. intros [Hl Hp]. destruct e; simpl.
  - split; [exact Hl|]. simpl. intros l H. congruence.
  - split; [|simpl; discriminate]. simpl.
    destruct Hl as [H|[H|H]]; rewrite H; simpl; auto.
  - destruct (Drawer.clickTimeout s) as [c|] eqn:E;
      [|split; [exact Hl | intros l Hn; rewrite E in Hn; discriminate]].
    specialize (Hp c eq_refl). subst c.
    split; [|simpl; discriminate]. simpl. unfold Drawer.singleClick.
    destruct Hl as [H|[H|H]]; rewrite H; simpl; auto.
Qed.

Lemma drawer_run_invariant (events : list Drawer.Event) (s : Drawer.State) :
  drawerInvariant s -> drawerInvariant (Drawer.run s events).
Proof.
  revert s. induction events as [|e r IH]; intros s H; [exact H|].
  apply IH, drawer_step_invariant, H.
Qed.

Lemma drawer_initial_invariant : drawerInvariant Drawer.initial.
Proof. split; [left; reflexivity | discriminate]. Qed.

(** X11. Whatever clicks, double clicks and timer expiries arrive and in
    whatever order, the drawer level stays 0, 1 or 2 and a pending
    single-click timer closed over the level that is still current. Level 2
    is entered only by a double click at level 1. A click whose timer
    expires opens a closed drawer and closes an open one; the two clicks
    and the double click of a double-click gesture raise level 1 to 2,
    leave the other levels as they are, and leave no timer behind. *)
Theorem X11_drawer (events : list Drawer.Event) :
  let s := Drawer.run Drawer.initial events in
  ((Drawer.drawerLevel s = 0 \/ Drawer.drawerLevel s = 1 \/ Drawer.drawerLevel s = 2)
   /\ forall l, Drawer.clickTimeout s = Some l -> l = Drawer.drawerLevel s)
  /\ (forall e, Drawer.drawerLevel (Drawer.step s e) = 2 ->
        Drawer.drawerLevel s = 2
        \/ (e = Drawer.DoubleClick /\ Drawer.drawerLevel s = 1))
  /\ Drawer.drawerLevel (Drawer.run s [Drawer.Click; Drawer.TimerFires])
     = (if Drawer.drawerLevel s =? 0 then 1 else 0)
  /\ Drawer.run s [Drawer.Click; Drawer.Click; Drawer.DoubleClick]
     = {| Drawer.drawerLevel :=
            if Drawer.drawerLevel s =? 1 then 2 else Drawer.drawerLevel s;
          Drawer.clickTimeout := None |}
  /\ Drawer.run s [Drawer.Click; Drawer.Click; Drawer.DoubleClick; Drawer.TimerFires]
     = Drawer.run s [Drawer.Click; Drawer.Click; Drawer.DoubleClick].
Proof.
  intros s.
  assert (Hinv : drawerInvariant s)
    by (apply drawer_run_invariant, drawer_initial_invariant).
  destruct Hinv as [Hl Hp].
  split; [split; assumption|]. split; [|split; [|split]].
  - intros e H2. destruct e; simpl in H2.
    + left. exact H2.
    + destruct Hl as [H|[H|H]]; rewrite H in *; simpl in H2;
        [discriminate | right; split; reflexivity | left; reflexivity].
    + destruct (Drawer.clickTimeout s) as [c|] eqn:E; [|left; exact H2].
      specialize (Hp c eq_refl). subst c. simpl in H2. unfold Drawer.singleClick in H2.
      destruct Hl as [H|[H|H]]; rewrite H in H2; simpl in H2; discriminate.
  - simpl. unfold Drawer.singleClick.
    destruct Hl as [H|[H|H]]; rewrite H; reflexivity.
  - reflexivity.
  - reflexivity.
Qed.

(** ** Dragging a node *)









Lemma X11_drawer_witness :
  let s := Drawer.run Drawer.initial [Drawer.Click; Drawer.TimerFires] in
  Drawer.drawerLevel (Drawer.step s Drawer.DoubleClick) = 2
  /\ (Drawer.drawerLevel s = 2
      \/ (Drawer.DoubleClick = Drawer.DoubleClick /\ Drawer.drawerLevel s = 1)).
Proof.
  intros s.
  assert (H : Drawer.drawerLevel (Drawer.step s Drawer.DoubleClick) = 2) by reflexivity.
  split; [exact H|].
  exact (proj1 (proj2 (X11_drawer [Drawer.Click; Drawer.TimerFires]))
           Drawer.DoubleClick H).
Defined.

(** ** The theme *)

Lemma toggleTheme_consistent (s : Theme.State) :
  themeConsistent s -> themeConsistent (Theme.toggleTheme s).
Proof.
  unfold themeConsistent, Theme.toggleTheme. intros _.
  destruct (Theme.isDarkMode s); simpl; repeat split; congruence.
Qed.

Lemma mount_consistent (saved : option string) :
  themeConsistent (Theme.mount false saved).
Proof.
  unfold themeConsistent, Theme.mount.
  destruct saved as [theme|]; [|simpl; repeat split; congruence].
  destruct (String.eqb theme "light") eqn:E; simpl.
  - apply String.eqb_eq in E. subst. repeat split; congruence.
  - apply String.eqb_neq in E. repeat split; congruence.
Qed.

(** X13. From a page load, after any number of theme toggles, the body
    carries the light-mode class exactly when the mode is light, and the
    saved theme is "light" exactly when the mode is light. Hence loading
    the page again with what was saved comes up in the mode that was left,
    and two toggles in a row restore the mode and the class. *)
Theorem X13_theme_persists (saved : option string) (toggles : nat) :
  let s := Nat.iter toggles Theme.toggleTheme (Theme.mount false saved) in
  Theme.lightModeClass s = negb (Theme.isDarkMode s)
  /\ (Theme.isDarkMode s = false <-> Theme.savedTheme s = Some "light")
  /\ (forall bodyLight,
        Theme.isDarkMode (Theme.mount bodyLight (Theme.savedTheme s))
        = Theme.isDarkMode s)
  /\ Theme.mount false (Theme.savedTheme (Theme.toggleTheme s))
     = Theme.toggleTheme s
  /\ Theme.isDarkMode (Theme.toggleTheme (Theme.toggleTheme s)) = Theme.isDarkMode s
  /\ Theme.lightModeClass (Theme.toggleTheme (Theme.toggleTheme s))
     = Theme.lightModeClass s.
Proof.
  intros s.
  assert (Hc : themeConsistent s).
  { unfold s. induction toggles as [|n IH]; simpl.
    - apply mount_consistent.
    - apply toggleTheme_consistent, IH. }
  destruct Hc as [Hclass Hsaved].
  split; [exact Hclass|]. split; [exact Hsaved|]. split; [|split; [|split]].
  - intros bodyLight. unfold Theme.mount.
    destruct (Theme.savedTheme s) as [theme|] eqn:E.
    + destruct (String.eqb theme "light") eqn:El; simpl.
      * apply String.eqb_eq in El. subst. symmetry. apply Hsaved. reflexivity.
      * apply String.eqb_neq in El.
        destruct (Theme.isDarkMode s); [reflexivity|].
        exfalso. apply El. assert (H : Some theme = Some "light") by (apply Hsaved; reflexivity).
        congruence.
    + simpl. destruct (Theme.isDarkMode s); [reflexivity|].
      assert (H : None = Some "light") by (apply Hsaved; reflexivity). discriminate.
  - unfold Theme.toggleTheme. destruct (Theme.isDarkMode s); reflexivity.
  - unfold Theme.toggleTheme. destruct (Theme.isDarkMode s); reflexivity.
  - unfold Theme.toggleTheme. rewrite Hclass. destruct (Theme.isDarkMode s); reflexivity.
Qed.

Lemma X13_theme_persists_witness :
  let s := Nat.iter 3 Theme.toggleTheme (Theme.mount false None) in
  Theme.isDarkMode s = false /\ Theme.savedTheme s = Some "light".
Proof.
  intros s.
  assert (H : Theme.isDarkMode s = false) by reflexivity.
  split; [exact H|].
  exact (proj1 (proj1 (proj2 (X13_theme_persists None 3))) H).
Defined.

(** ** Objects used as maps *)

Lemma hasOwn_In {A} (k : string) (o : list (string * A)) :
  hasOwn k o = true <-> In k (map fst o).
Proof.
  unfold hasOwn. rewrite existsb_exists, in_map_iff. split.
  - intros [e [He Hk]]. apply String.eqb_eq in Hk. exists e. tauto.
  - intros [e [Hk He]]. exists e. split; [exact He | apply String.eqb_eq, Hk].
Qed.

Lemma hasOwn_cons {A} (k k' : string) (a : A) (o : list (string * A)) :
  hasOwn k ((k', a) :: o) = (String.eqb k' k || hasOwn k o)%bool.
Proof. reflexivity. Qed.

Lemma objectReplace_own {A} (k : string) (v : A) (o : list (string * A)) :
  hasOwn k o = true -> JsObject.own (objectReplace k v o) k = Some v.
Proof.
  induction o as [|[k' a] r IH]; [discriminate|].
  rewrite hasOwn_cons. simpl.
  destruct (String.eqb k' k) eqn:E; simpl; rewrite E; [reflexivity | exact IH].
Qed.

Lemma objectAdd_own {A} (k : string) (v : A) (o : list (string * A)) :
  hasOwn k o = false -> JsObject.own (objectAdd k v o) k = Some v.
Proof.
  induction o as [|[k' a] r IH]; simpl.
  - rewrite String.eqb_refl. reflexivity.
  - intros H. apply orb_false_iff in H. destruct H as [E Hr].
    destruct (enumeratedBefore k' k); simpl.
    + rewrite E. exact (IH Hr).
    + rewrite String.eqb_refl. reflexivity.
Qed.

Lemma objectSet_own {A} (k : string) (v : A) (o : list (string * A)) :
  JsObject.own (objectSet k v o) k = Some v.
Proof.
  unfold objectSet. destruct (hasOwn k o) eqn:E.
  - apply objectReplace_own, E.
  - apply objectAdd_own, E.
Qed.

Lemma objectSet_other {A} (k k' : string) (v : A) (o : list (string * A)) :
  k' <> k -> JsObject.own (objectSet k v o) k' = JsObject.own o k'.
Proof.
  intros Hne.
  assert (E' : String.eqb k k' = false) by (apply String.eqb_neq; congruence).
  unfold objectSet. destruct (hasOwn k o).
  - induction o as [|[k0 a] r IH]; simpl; [reflexivity|].
    destruct (String.eqb k0 k) eqn:E; simpl.
    + apply String.eqb_eq in E. subst k0. rewrite E'. reflexivity.
    + destruct (String.eqb k0 k'); [reflexivity | exact IH].
  - induction o as [|[k0 a] r IH]; simpl.
    + rewrite E'. reflexivity.
    + destruct (enumeratedBefore k0 k); simpl.
      * destruct (String.eqb k0 k'); [reflexivity | exact IH].
      * rewrite E'. reflexivity.
Qed.

Lemma objectReplace_keys {A} (k : string) (v : A) (o : list (string * A)) :
  map fst (objectReplace k v o) = map fst o.
Proof.
  induction o as [|[k' a] r IH]; simpl; [reflexivity|].
  destruct (String.eqb k' k); simpl; [reflexivity | rewrite IH; reflexivity].
Qed.

(** A key that is not an array index is created at the end. *)
Lemma objectAdd_name {A} (k : string) (v : A) (o : list (string * A)) :
  isArrayIndex k = false -> objectAdd k v o = o ++ [(k, v)].
Proof.
  intros Hk. induction o as [|[k' a] r IH]; simpl; [reflexivity|].
  unfold enumeratedBefore. rewrite Hk, IH. reflexivity.
Qed.

(** An array index is created after the smaller array indices at the front
    and before what follows them. *)
Lemma objectAdd_index {A} (k : string) (v : A) (o : list (string * A)) :
  isArrayIndex k = true ->
  exists front back,
    o = front ++ back
    /\ objectAdd k v o = front ++ (k, v) :: back
    /\ Forall (fun e => isArrayIndex (fst e) = true /\ indexOf (fst e) < indexOf k) front
    /\ (forall e r, back = e :: r ->
          isArrayIndex (fst e) = false \/ indexOf k <= indexOf (fst e)).
Proof.
  intros Hk. induction o as [|[k' a] r IH]; simpl.
  - exists [], []. repeat split; [constructor | intros e r H; discriminate H].
  - unfold enumeratedBefore at 1. rewrite Hk.
    destruct (isArrayIndex k') eqn:Ek'; simpl.
    + destruct (indexOf k' <? indexOf k) eqn:El.
      * destruct IH as [front [back [Ho [Ha [Hf Hb]]]]].
        exists ((k', a) :: front), back. simpl.
        split; [rewrite Ho at 1; reflexivity|].
        split; [rewrite Ha; reflexivity|].
        split; [|exact Hb].
        constructor; [|exact Hf]. simpl. split; [exact Ek' | apply Z.ltb_lt, El].
      * exists [], ((k', a) :: r). simpl.
        split; [reflexivity|]. split; [reflexivity|]. split; [constructor|].
        intros e r0 H. injection H as <- _. simpl. right. apply Z.ltb_ge, El.
    + exists [], ((k', a) :: r). simpl.
      split; [reflexivity|]. split; [reflexivity|]. split; [constructor|].
      intros e r0 H. injection H as <- _. simpl. left. exact Ek'.
Qed.

Lemma objectAdd_perm {A} (k : string) (v : A) (o : list (string * A)) :
  Permutation (objectAdd k v o) ((k, v) :: o).
Proof.
  induction o as [|[k' a] r IH]; simpl; [apply Permutation_refl|].
  destruct (enumeratedBefore k' k); [|apply Permutation_refl].
  eapply Permutation_trans; [apply perm_skip, IH | apply perm_swap].
Qed.

Lemma keyOrder_created (k' k : string) :
  enumeratedBefore k' k = true -> keyOrder k' k.
Proof.
  unfold enumeratedBefore, keyOrder. destruct (isArrayIndex k); [|intros _; left; reflexivity].
  intros H. apply andb_true_iff in H. destruct H as [H1 H2].
  apply Z.ltb_lt in H2. right. split; [exact H1 | lia].
Qed.

Lemma objectAdd_ordered {A} (k : string) (v : A) (o : list (string * A)) :
  enumerationOrdered o -> enumerationOrdered (objectAdd k v o).
Proof.
  unfold enumerationOrdered. induction o as [|[k' a] r IH]; simpl; intros HS.
  - constructor; constructor.
  - apply StronglySorted_inv in HS. destruct HS as [HS Hall].
    destruct (enumeratedBefore k' k) eqn:E; simpl.
    + constructor; [exact (IH HS)|].
      apply Forall_forall. intros x Hx.
      apply (Permutation_in _ (Permutation_map fst (objectAdd_perm k v r))) in Hx.
      simpl in Hx. destruct Hx as [<-|Hx].
      * apply keyOrder_created, E.
      * rewrite Forall_forall in Hall. exact (Hall x Hx).
    + assert (Hk : isArrayIndex k = true
                   /\ (isArrayIndex k' = false \/ indexOf k <= indexOf k')).
      { unfold enumeratedBefore in E. destruct (isArrayIndex k); [|discriminate].
        split; [reflexivity|]. apply andb_false_iff in E.
        destruct E as [E|E]; [left; exact E | right; apply Z.ltb_ge, E]. }
      destruct Hk as [Hk Hk'].
      assert (Hhead : keyOrder k k').
      { destruct Hk' as [Hn|Hle]; [left; exact Hn | right; split; assumption]. }
      constructor; [constructor; assumption|].
      constructor; [exact Hhead|].
      apply Forall_forall. intros x Hx. rewrite Forall_forall in Hall.
      destruct (Hall x Hx) as [Hn|[Hi Hle]]; [left; exact Hn|].
      destruct Hk' as [Hn|Hle']; [congruence|].
      right. split; [exact Hk | lia].
Qed.

Lemma hasOwn_objectAdd {A} (k : string) (v : A) (o : list (string * A)) :
  hasOwn k (objectAdd k v o) = true.
Proof.
  apply hasOwn_In. apply (Permutation_in _ (Permutation_sym
    (Permutation_map fst (objectAdd_perm k v o)))). left. reflexivity.
Qed.

Lemma hasOwn_objectReplace {A} (k : string) (v : A) (o : list (string * A)) :
  hasOwn k (objectReplace k v o) = hasOwn k o.
Proof.
  destruct (hasOwn k o) eqn:E.
  - apply hasOwn_In. rewrite objectReplace_keys. apply hasOwn_In, E.
  - destruct (hasOwn k (objectReplace k v o)) eqn:E'; [|reflexivity].
    apply hasOwn_In in E'. rewrite objectReplace_keys in E'.
    apply hasOwn_In in E'. congruence.
Qed.

Lemma objectReplace_twice {A} (k : string) (e v : A) (o : list (string * A)) :
  objectReplace k v (objectReplace k e o) = objectReplace k v o.
Proof.
  induction o as [|[k' a] r IH]; simpl; [reflexivity|].
  destruct (String.eqb k' k) eqn:E; simpl; rewrite E; [reflexivity|].
  rewrite IH. reflexivity.
Qed.

Lemma objectReplace_added {A} (k : string) (e v : A) (o : list (string * A)) :
  hasOwn k o = false -> objectReplace k v (objectAdd k e o) = objectAdd k v o.
Proof.
  induction o as [|[k' a] r IH]; simpl.
  - rewrite String.eqb_refl. reflexivity.
  - intros H. apply orb_false_iff in H. destruct H as [E Hr].
    destruct (enumeratedBefore k' k); simpl.
    + rewrite E, (IH Hr). reflexivity.
    + rewrite String.eqb_refl. reflexivity.
Qed.

(** The later of two writes to one key is the one that counts. *)
Lemma objectSet_twice {A} (k : string) (e v : A) (o : list (string * A)) :
  objectSet k v (objectSet k e o) = objectSet k v o.
Proof.
  unfold objectSet. destruct (hasOwn k o) eqn:E.
  - rewrite hasOwn_objectReplace, E. apply objectReplace_twice.
  - rewrite hasOwn_objectAdd. apply objectReplace_added, E.
Qed.

(** Names are enumerated as created, array indices first and ascending,
    as in [Object.keys({a_1: w, b_2: z, 10: y, 7: x})]. *)
Example objectSet_enumeration :
  map fst (objectSet "7" "x"
             (objectSet "10" "y" (objectSet "b_2" "z" (objectSet "a_1" "w" []))))
  = ["7"; "10"; "a_1"; "b_2"]
  /\ isArrayIndex "07" = false
  /\ isArrayIndex "4294967294" = true
  /\ isArrayIndex "4294967295" = false.
Proof.
  split; [vm_compute; reflexivity|].
  split; [vm_compute; reflexivity|].
  split; vm_compute; reflexivity.
Qed.

(** X14. Assigning a transform to an input in the guided join, like
    setting a context value, reads back as assigned and leaves the entry of
    every other key as it was. The keys keep their order when the input
    had an entry; a new key goes to the end when it is not an array index,
    and otherwise after the smaller array indices at the front; an object
    whose keys are in enumeration order stays so, and distinct keys stay
    distinct. The handler touches neither the other guided-join fields nor
    the job, and the later of two assignments to one input wins. *)
Theorem X14_input_mapping (st : EditorState) (inputId transformId : string) :
  let st' := handleInputMappingChange st inputId transformId in
  let m := inputMappings (guidedJoinData st) in
  let m' := inputMappings (guidedJoinData st') in
  JsObject.own m' inputId = Some transformId
  /\ (forall other, other <> inputId -> JsObject.own m' other = JsObject.own m other)
  /\ (hasOwn inputId m = true -> map fst m' = map fst m)
  /\ (hasOwn inputId m = false -> isArrayIndex inputId = false ->
      m' = m ++ [(inputId, transformId)])
  /\ (hasOwn inputId m = false -> isArrayIndex inputId = true ->
      exists front back,
        m = front ++ back
        /\ m' = front ++ (inputId, transformId) :: back
        /\ Forall (fun e => isArrayIndex (fst e) = true
                            /\ indexOf (fst e) < indexOf inputId) front
        /\ (forall e r, back = e :: r ->
              isArrayIndex (fst e) = false \/ indexOf inputId <= indexOf (fst e)))
  /\ (enumerationOrdered m -> enumerationOrdered m')
  /\ (NoDup (map fst m) -> NoDup (map fst m'))
  /\ (job st' = job st
      /\ inputNodes (guidedJoinData st') = inputNodes (guidedJoinData st)
      /\ transformNodes (guidedJoinData st') = transformNodes (guidedJoinData st)
      /\ outputNodes (guidedJoinData st') = outputNodes (guidedJoinData st)
      /\ fanInSelection (guidedJoinData st') = fanInSelection (guidedJoinData st)
      /\ finalOutput (guidedJoinData st') = finalOutput (guidedJoinData st))
  /\ (forall earlier,
        handleInputMappingChange
          (handleInputMappingChange st inputId earlier) inputId transformId
        = st')
  /\ (forall prev, updateContextValue prev inputId transformId
                   = objectSet inputId transformId prev).
Proof.
  intros st' m m'. unfold st', m', handleInputMappingChange. simpl. fold m.
  split; [apply objectSet_own|].
  split; [intros other Hne; apply objectSet_other; exact Hne|].
  split.
  { intros Hown. unfold objectSet. rewrite Hown. apply objectReplace_keys. }
  split.
  { intros Hown Hk. unfold objectSet. rewrite Hown. apply objectAdd_name, Hk. }
  split.
  { intros Hown Hk. unfold objectSet. rewrite Hown. apply objectAdd_index, Hk. }
  split.
  { intros Hord. unfold objectSet. destruct (hasOwn inputId m).
    - unfold enumerationOrdered. rewrite objectReplace_keys. exact Hord.
    - apply objectAdd_ordered, Hord. }
  split.
  { intros Hnd. unfold objectSet. destruct (hasOwn inputId m) eqn:E.
    - rewrite objectReplace_keys. exact Hnd.
    - apply (Permutation_NoDup (Permutation_sym
        (Permutation_map fst (objectAdd_perm inputId transformId m)))).
      simpl. constructor; [|exact Hnd].
      intros Hin. apply hasOwn_In in Hin. congruence. }
  split; [repeat split|].
  split; [|reflexivity].
  intros earlier. unfold setGuidedJoinData. simpl. f_equal. f_equal.
  apply objectSet_twice.
Qed.

Lemma X14_input_mapping_witness :
  let st := handleInputMappingChange (initialState twoInputsJob)
              "tOracleInput_2" "tMap_4" in
  let st' := handleInputMappingChange st "tFileInputDelimited_1" "tMap_5" in
  "tOracleInput_2" <> "tFileInputDelimited_1"
  /\ hasOwn "tFileInputDelimited_1" (inputMappings (guidedJoinData st)) = false
  /\ isArrayIndex "tFileInputDelimited_1" = false
  /\ JsObject.own (inputMappings (guidedJoinData st')) "tOracleInput_2"
     = JsObject.own (inputMappings (guidedJoinData st)) "tOracleInput_2"
  /\ inputMappings (guidedJoinData st')
     = inputMappings (guidedJoinData st) ++ [("tFileInputDelimited_1", "tMap_5")].
Proof.
  intros st st'.
  assert (Hne : "tOracleInput_2" <> "tFileInputDelimited_1") by discriminate.
  assert (Hown : hasOwn "tFileInputDelimited_1" (inputMappings (guidedJoinData st)) = false)
    by reflexivity.
  assert (Hname : isArrayIndex "tFileInputDelimited_1" = false) by reflexivity.
  split; [exact Hne|]. split; [exact Hown|]. split; [exact Hname|].
  destruct (X14_input_mapping st "tFileInputDelimited_1" "tMap_5")
    as [_ [Hother [_ [Hend _]]]].
  split; [exact (Hother "tOracleInput_2" Hne) | exact (Hend Hown Hname)].
Defined.

(** ** The classifier reads types without regard to case *)

Lemma lower_char_idem (c : ascii) :
  JsString.lower_char (JsString.lower_char c) = JsString.lower_char c.
Proof. destruct c as [[] [] [] [] [] [] [] []]; reflexivity. Qed.

Lemma toLowerCase_idem (s : string) :
  JsString.toLowerCase (JsString.toLowerCase s) = JsString.toLowerCase s.
Proof.
  induction s as [|c r IH]; [reflexivity|]. simpl. rewrite lower_char_idem, IH. reflexivity.
Qed.

Lemma truthy_toLowerCase (s : string) :
  JsString.truthy (JsString.toLowerCase s) = JsString.truthy s.
Proof. destruct s; reflexivity. Qed.

Lemma lowered_lowerCase (o : option string) :
  lowered (option_map JsString.toLowerCase o) = lowered o.
Proof.
  destruct o as [s|]; [|reflexivity]. simpl.
  rewrite truthy_toLowerCase, toLowerCase_idem. reflexivity.
Qed.

(** X15. Both lookups of the classifier read the type strings without
    regard to case: a component classifies, in category and in ports, as
    the same component with [original_type] and [type] in lower case. When
    [original_type] is present and not empty the category depends on it
    alone; otherwise it depends on [type] alone, and with neither it is
    Transform. *)
Theorem X15_case_insensitive (c : Component) :
  getComponentCategory (lowerCased c) = getComponentCategory c
  /\ getComponentRegistryInfo (lowerCased c) = getComponentRegistryInfo c
  /\ (forall c' s, comp_original_type c = Some s -> s <> EmptyString ->
        comp_original_type c' = Some s ->
        getComponentCategory c' = getComponentCategory c)
  /\ (forall c', lowered (comp_original_type c) = None ->
        lowered (comp_original_type c') = None ->
        comp_type c' = comp_type c ->
        getComponentCategory c' = getComponentCategory c)
  /\ (lowered (comp_original_type c) = None -> lowered (comp_type c) = None ->
        getComponentCategory c = Some Transform).
Proof.
  split; [|split; [|split; [|split]]].
  - unfold getComponentCategory, categoryKey, chosenType, lowerCased. simpl.
    rewrite !lowered_lowerCase. reflexivity.
  - unfold getComponentRegistryInfo, componentKey, lowerCased. simpl.
    rewrite lowered_lowerCase.
    destruct (comp_original_type c) as [s|]; simpl; [|reflexivity].
    rewrite toLowerCase_idem. reflexivity.
  - intros c' s Hs Hne Hs'.
    unfold getComponentCategory, categoryKey, chosenType. rewrite Hs, Hs'. simpl.
    destruct s; [contradiction|]. reflexivity.
  - intros c' H H' Ht.
    unfold getComponentCategory, categoryKey, chosenType. rewrite H, H', Ht. reflexivity.
  - intros H1 H2.
    unfold getComponentCategory, categoryKey, chosenType. rewrite H1, H2. reflexivity.
Qed.

Lemma X15_case_insensitive_witness :
  let c := mkComponent "n_1" (Some "tFileInputDelimited") (Some "ignored") in
  let c' := mkComponent "n_2" (Some "tFileInputDelimited") None in
  getComponentCategory c' = getComponentCategory c.
Proof.
  intros c c'.
  refine (proj1 (proj2 (proj2 (X15_case_insensitive c))) c' "tFileInputDelimited"
            eq_refl _ eq_refl).
  discriminate.
Defined.

(** ** The manual connection as a gesture *)

Lemma handleMouseMove_frame (st : EditorState) (x y : Z) :
  job (handleMouseMove st x y) = job st
  /\ (forall s p cx cy, connectionDragState st = Dragging s p cx cy ->
        connectionDragState (handleMouseMove st x y) = Dragging s p x y)
  /\ (connectionDragState st = NotDragging -> handleMouseMove st x y = st).
Proof.
  unfold handleMouseMove.
  destruct (connectionDragState st) as [|s p cx cy] eqn:E; simpl.
  - repeat split; try reflexivity. intros; discriminate.
  - repeat split; try reflexivity.
    + intros s' p' cx' cy' H. injection H as <- <- _ _. reflexivity.
    + discriminate.
Qed.

Lemma pointerMoves_frame (pointer : list (Z * Z)) (st : EditorState) :
  job (pointerMoves st pointer) = job st
  /\ (forall s p cx cy, connectionDragState st = Dragging s p cx cy ->
        exists cx' cy',
          connectionDragState (pointerMoves st pointer) = Dragging s p cx' cy')
  /\ (connectionDragState st = NotDragging -> pointerMoves st pointer = st).
Proof.
  revert st. induction pointer as [|[x y] r IH]; intros st.
  - simpl. repeat split; try reflexivity. intros s p cx cy H. eauto.
  - unfold pointerMoves in *. simpl fold_left. cbn [fst snd].
    destruct (handleMouseMove_frame st x y) as [Hj [Hd Hn]].
    destruct (IH (handleMouseMove st x y)) as [IHj [IHd IHn]].
    split; [congruence|]. split.
    + intros s p cx cy H. eapply IHd. eapply Hd. exact H.
    + intros H. rewrite (Hn H). apply IH. exact H.
Qed.

Lemma handleAnchorMouseUp_cursor (st : EditorState) (s : string) (p : option string)
    (cx cy cx' cy' : Z) (target : string) (targetPort : option string)
    (anchorType : string) :
  job (handleAnchorMouseUp (setConnectionDragState st (Dragging s p cx cy))
         target targetPort anchorType)
  = job (handleAnchorMouseUp (setConnectionDragState st (Dragging s p cx' cy'))
           target targetPort anchorType).
Proof.
  unfold handleAnchorMouseUp. simpl.
  destruct (negb (String.eqb anchorType "input")); [reflexivity|].
  destruct (String.eqb s target); [reflexivity|].
  destruct (job st) as [j|]; [|reflexivity].
  destruct (existsb _ (flowsOf j)); reflexivity.
Qed.

Lemma release_job_by_drag (st st' : EditorState) (target : string)
    (targetPort : option string) (anchorType : string) :
  job st = job st' ->
  (connectionDragState st = NotDragging /\ connectionDragState st' = NotDragging)
  \/ (exists s p cx cy cx' cy',
        connectionDragState st = Dragging s p cx cy
        /\ connectionDragState st' = Dragging s p cx' cy') ->
  job (handleAnchorMouseUp st target targetPort anchorType)
  = job (handleAnchorMouseUp st' target targetPort anchorType).
Proof.
  intros Hj Hd. unfold handleAnchorMouseUp.
  destruct Hd as [[-> ->]|[s [p [cx [cy [cx' [cy' [-> ->]]]]]]]]; [exact Hj|].
  destruct (negb (String.eqb anchorType "input")); [exact Hj|].
  destruct (String.eqb s target); [exact Hj|].
  rewrite <- Hj. destruct (job st) as [j|] eqn:E.
  - destruct (existsb _ (flowsOf j)); [congruence | reflexivity].
  - congruence.
Qed.

(** X16. Releasing a second time on the same anchor adds nothing: the
    state after two releases is the state after one. Pointer moves between
    press and release never change the job and do not change what the
    release commits. A whole gesture, press on the output anchor of [src],
    any moves, release on the input anchor of [target], then the release
    handler of the document, ends with no drag in progress and with the
    job either unchanged, when [target] is [src] or the flow exists, or
    with that one flow appended. *)
Theorem X16_connection_gesture (st : EditorState) (target : string)
    (targetPort : option string) (anchorType : string) :
  handleAnchorMouseUp (handleAnchorMouseUp st target targetPort anchorType)
                      target targetPort anchorType
  = handleAnchorMouseUp st target targetPort anchorType
  /\ (forall pointer,
        job (pointerMoves st pointer) = job st
        /\ job (handleAnchorMouseUp (pointerMoves st pointer)
                  target targetPort anchorType)
           = job (handleAnchorMouseUp st target targetPort anchorType))
  /\ (forall j src port x y pointer,
        job st = Some j ->
        let final :=
          handleMouseUp
            (handleAnchorMouseUp
               (pointerMoves (handleAnchorMouseDown st src port "output" x y) pointer)
               target targetPort "input") in
        connectionDragState final = NotDragging
        /\ job final =
           if (String.eqb src target
               || existsb (fun flow => (String.eqb (flow_from flow) src
                                        && String.eqb (flow_to flow) target)%bool)
                          (flowsOf j))%bool
           then Some j
           else Some {| components := components j;
                        flows := Some (flowsOf j ++
                                       [ {| flow_name := portNameOf port;
                                            flow_from := src; flow_to := target;
                                            flow_type := "flow" |} ]) |}).
Proof.
  split; [|split].
  - assert (Hcases :
      handleAnchorMouseUp st target targetPort anchorType = st
      \/ exists j s sp cx cy,
           connectionDragState st = Dragging s sp cx cy
           /\ negb (String.eqb anchorType "input") = false
           /\ String.eqb s target = false
           /\ handleAnchorMouseUp st target targetPort anchorType
              = updateJob st
                  {| components := components j;
                     flows := Some (flowsOf j ++
                                    [ {| flow_name := portNameOf sp; flow_from := s;
                                         flow_to := target; flow_type := "flow" |} ]) |}).
    { unfold handleAnchorMouseUp.
      destruct (connectionDragState st) as [|s sp cx cy] eqn:Hd; [left; reflexivity|].
      destruct (negb (String.eqb anchorType "input")) eqn:Ha; [left; reflexivity|].
      destruct (String.eqb s target) eqn:Es; [left; reflexivity|].
      destruct (job st) as [j|] eqn:Hj; [|left; reflexivity].
      destruct (existsb _ (flowsOf j)) eqn:Ee; [left; reflexivity|].
      right. exists j, s, sp, cx, cy. repeat split; try reflexivity; try assumption. }
    destruct Hcases as [H|[j [s [sp [cx [cy [Hd [Ha [Es H]]]]]]]]].
    + rewrite H. exact H.
    + rewrite H. unfold handleAnchorMouseUp. simpl. rewrite Hd, Ha, Es.
      unfold flowsOf at 1. simpl. rewrite existsb_app. simpl.
      rewrite !String.eqb_refl. simpl. rewrite orb_true_r. reflexivity.
  - intros pointer.
    destruct (pointerMoves_frame pointer st) as [Hj [Hd Hn]].
    split; [exact Hj|].
    apply release_job_by_drag; [exact Hj|].
    destruct (connectionDragState st) as [|s p cx cy] eqn:E.
    + left. split; [|reflexivity]. rewrite (Hn eq_refl). exact E.
    + right. destruct (Hd s p cx cy eq_refl) as [cx' [cy' H']].
      exists s, p, cx', cy', cx, cy. split; [exact H' | reflexivity].
  - intros j src port x y pointer Hj final.
    split; [reflexivity|].
    unfold final, handleMouseUp. simpl job.
    set (pressed := handleAnchorMouseDown st src port "output" x y).
    assert (Hp : pressed = setConnectionDragState st (Dragging src port x y))
      by reflexivity.
    destruct (pointerMoves_frame pointer pressed) as [Hjm [Hdm _]].
    destruct (Hdm src port x y) as [cx' [cy' Hdrag]]; [rewrite Hp; reflexivity|].
    assert (Hjp : job (pointerMoves pressed pointer) = Some j)
      by (rewrite Hjm, Hp; exact Hj).
    unfold handleAnchorMouseUp. rewrite Hdrag. simpl negb. cbv iota.
    destruct (String.eqb src target); simpl orb; [exact Hjp|].
    rewrite Hjp. destruct (existsb _ (flowsOf j)); [exact Hjp | reflexivity].
Qed.

Lemma X16_connection_gesture_witness :
  let final :=
    handleMouseUp
      (handleAnchorMouseUp
         (pointerMoves
            (handleAnchorMouseDown (initialState readWriteJob)
               "tFileInputDelimited_1" (Some "main") "output" 5 5)
            [(6, 6); (50, 7)])
         "tFileOutputDelimited_2" None "input") in
  job (initialState readWriteJob) = Some readWriteJob
  /\ connectionDragState final = NotDragging.
Proof.
  intros final. split; [reflexivity|].
  exact (proj1 (proj2 (proj2 (X16_connection_gesture (initialState readWriteJob)
                                "tFileOutputDelimited_2" None "input"))
                      readWriteJob "tFileInputDelimited_1" (Some "main") 5 5
                      [(6, 6); (50, 7)] eq_refl)).
Defined.

(** ** Smart Join closes no cycle *)

Section NoCycle.
Variable j : Job.
Hypothesis ids_unique : NoDup (nodeIds j).

Lemma sortedNodes_ids_unique : NoDup (map comp_id (sortedNodes j)).
Proof.
  apply (Permutation_NoDup (l := map comp_id (availableNodes j))).
  - apply Permutation_map, Permutation_sym, sortedNodes_perm.
  - apply kept_keys_unique. exact ids_unique.
Qed.

Lemma idAt_unique (i k : nat) (x : string) : candidateIdAt j i x -> candidateIdAt j k x -> i = k.
Proof.
  intros [c [Hc Hx]] [d [Hd Hy]].
  pose proof sortedNodes_ids_unique as Hnd.
  rewrite NoDup_nth_error in Hnd. apply Hnd.
  - rewrite length_map. apply nth_error_Some. congruence.
  - rewrite !nth_error_map, Hc, Hd. simpl. congruence.
Qed.

Lemma candidate_has_no_flow (i : nat) (x y : string) :
  candidateIdAt j i x -> ~ flowStep (flowsOf j) x y.
Proof.
  intros [c [Hc Hx]] [f [Hf [Hfrom _]]].
  pose proof (candidates_no_outgoing j c (nth_error_In _ _ Hc)) as Hno.
  rewrite hasOutgoing_false in Hno. apply (Hno f Hf). congruence.
Qed.

Lemma created_flow_positions (x y : string) :
  flowStep (newFlows (flowsOf j) (sortedNodes j)) x y ->
  exists i, candidateIdAt j i x /\ candidateIdAt j (S i) y.
Proof.
  intros [f [Hf [Hfrom Hto]]].
  destruct (newFlows_In _ _ _ Hf) as [i [src [tgt [H1 [H2 [-> _]]]]]].
  exists i. split; [exists src | exists tgt]; split; assumption.
Qed.

Lemma flowStep_app (fs gs : list Flow) (x y : string) :
  flowStep (fs ++ gs) x y -> flowStep fs x y \/ flowStep gs x y.
Proof.
  intros [f [Hf H]]. apply in_app_or in Hf.
  destruct Hf as [Hf|Hf]; [left | right]; exists f; split; assumption.
Qed.

Lemma clos_trans_first {A} (R : A -> A -> Prop) (x y : A) :
  clos_trans A R x y -> exists w, R x w.
Proof. induction 1 as [x y H|x z y _ IH _ _]; [exists y; exact H | exact IH]. Qed.

Lemma from_candidate_forward (x y : string) :
  clos_trans string
    (flowStep (flowsOf j ++ newFlows (flowsOf j) (sortedNodes j))) x y ->
  forall i, candidateIdAt j i x -> exists k, (i < k)%nat /\ candidateIdAt j k y.
Proof.
  induction 1 as [x y H|x z y _ IH1 _ IH2]; intros i Hi.
  - apply flowStep_app in H. destruct H as [H|H].
    + exfalso. exact (candidate_has_no_flow Hi H).
    + destruct (created_flow_positions H) as [m [Hm Hm']].
      rewrite (idAt_unique Hi Hm). exists (S m). split; [lia | exact Hm'].
  - destruct (IH1 i Hi) as [k [Hk Hz]]. destruct (IH2 k Hz) as [m [Hm Hy]].
    exists m. split; [lia | exact Hy].
Qed.

Lemma path_old_or_into_candidate (x y : string) :
  clos_trans string
    (flowStep (flowsOf j ++ newFlows (flowsOf j) (sortedNodes j))) x y ->
  clos_trans string (flowStep (flowsOf j)) x y \/ exists k, candidateIdAt j k y.
Proof.
  induction 1 as [x y H|x z y _ IH1 _ IH2].
  - apply flowStep_app in H. destruct H as [H|H].
    + left. apply t_step. exact H.
    + right. destruct (created_flow_positions H) as [m [_ Hm]]. exists (S m). exact Hm.
  - destruct IH2 as [H2|H2]; [|right; exact H2].
    destruct IH1 as [H1|[k Hk]].
    + left. eapply t_trans; eassumption.
    + exfalso. destruct (clos_trans_first H2) as [w Hw].
      exact (candidate_has_no_flow Hk Hw).
Qed.

Lemma created_flows_acyclic :
  acyclic (flowsOf j) ->
  acyclic (flowsOf j ++ newFlows (flowsOf j) (sortedNodes j)).
Proof.
  intros Hold a Hcycle.
  destruct (path_old_or_into_candidate Hcycle) as [H|[k Hk]].
  - exact (Hold a H).
  - destruct (from_candidate_forward Hcycle Hk) as [m [Hlt Hm]].
    pose proof (idAt_unique Hk Hm). lia.
Qed.

End NoCycle.

(** X17. On a job with unique node ids whose flows contain no cycle, the
    flows after Smart Join contain no cycle either, whichever exit it
    takes. *)
Theorem X17_smartJoin_acyclic (st : EditorState) (j : Job) :
  job st = Some j -> NoDup (nodeIds j) -> acyclic (flowsOf j) ->
  forall j', job (snd (handleSmartJoin st)) = Some j' -> acyclic (flowsOf j').
Proof.
  intros Hj Hids Hacyc j' Hj'.
  destruct (handleSmartJoin_job st) as [[Hsame _]|[j0 [cr [Hj0 [Heq [Hcr _]]]]]].
  - assert (j' = j) by congruence. subst j'. exact Hacyc.
  - assert (j0 = j) by congruence. subst j0.
    rewrite Heq in Hj'. simpl in Hj'. injection Hj' as <-.
    unfold flowsOf at 1. simpl flows. rewrite Hcr.
    apply created_flows_acyclic; assumption.
Qed.

Lemma acyclic_nil : acyclic [].
Proof.
  intros a H. destruct (clos_trans_first H) as [w [f [Hf _]]]. exact Hf.
Qed.

Lemma X17_smartJoin_acyclic_witness :
  job (initialState readWriteJob) = Some readWriteJob
  /\ NoDup (nodeIds readWriteJob)
  /\ acyclic (flowsOf readWriteJob)
  /\ acyclic (flowsOf connectedJob).
Proof.
  assert (Hids : NoDup (nodeIds readWriteJob)).
  { unfold nodeIds. simpl. constructor.
    - intros [H|[]]. discriminate.
    - constructor; [intros [] | constructor]. }
  split; [reflexivity|]. split; [exact Hids|]. split; [exact acyclic_nil|].
  apply (@X17_smartJoin_acyclic (initialState readWriteJob) readWriteJob
           eq_refl Hids acyclic_nil).
  vm_compute. reflexivity.
Defined.

(** ** The lists of the guided join *)

Lemma StronglySorted_filter {A} (R : A -> A -> Prop) (p : A -> bool) (l : list A) :
  StronglySorted R l -> StronglySorted R (filter p l).
Proof.
  induction 1 as [|x r HS IH Hall]; simpl; [constructor|].
  destruct (p x); [|exact IH].
  constructor; [exact IH|].
  rewrite Forall_forall in *. intros y Hy. apply filter_In in Hy. apply Hall. tauto.
Qed.

Lemma StronglySorted_weaken {A} (R R' : A -> A -> Prop) (P : A -> Prop) (l : list A) :
  (forall a b, P a -> P b -> R a b -> R' a b) ->
  Forall P l -> StronglySorted R l -> StronglySorted R' l.
Proof.
  intros HR HP HS. induction HS as [|x r HS IH Hall]; [constructor|].
  inversion HP as [|? ? Px Pr]; subst.
  constructor; [apply IH; exact Pr|].
  rewrite Forall_forall in *. intros y Hy. apply HR; auto.
Qed.

Lemma category_list_by_suffix (cat : Category) (j : Job) :
  StronglySorted
    (fun a b => getNumericSuffix (comp_id a) <= getNumericSuffix (comp_id b))
    (filter (hasCategory cat) (sortedNodes j)).
Proof.
  apply StronglySorted_weaken
    with (R := fun a b => lex_le (nodeKey a) (nodeKey b))
         (P := fun c => hasCategory cat c = true).
  - intros a b Ha Hb Hle. unfold lex_le, nodeKey in Hle. simpl in Hle.
    rewrite (priority_of_category _ _ Ha), (priority_of_category _ _ Hb) in Hle. lia.
  - rewrite Forall_forall. intros c Hc. apply filter_In in Hc. tauto.
  - apply StronglySorted_filter, sortedNodes_sorted.
Qed.

(** X18. When Smart Join enters the guided mode, each of the three lists it
    hands over is in ascending order of numeric suffix (the suffix as the
    number [parseInt] returns), no component is in two of them, and
    together they hold at most as many components as there are
    candidates. *)
Theorem X18_guided_lists (st : EditorState) (j : Job) :
  job st = Some j ->
  fst (handleSmartJoin st) = AmbiguousTopology ->
  let g := guidedJoinData (snd (handleSmartJoin st)) in
  let bySuffix := fun a b =>
    getNumericSuffix (comp_id a) <= getNumericSuffix (comp_id b) in
  StronglySorted bySuffix (inputNodes g)
  /\ StronglySorted bySuffix (transformNodes g)
  /\ StronglySorted bySuffix (outputNodes g)
  /\ (forall c, In c (inputNodes g) ->
        ~ In c (transformNodes g) /\ ~ In c (outputNodes g))
  /\ (forall c, In c (transformNodes g) -> ~ In c (outputNodes g))
  /\ (List.length (inputNodes g) + List.length (transformNodes g)
      + List.length (outputNodes g) <= List.length (availableNodes j))%nat.
Proof.
  intros Hj Hout g bySuffix.
  assert (Hg : g = guidedJoinInit (sortedNodes j)).
  { unfold g. revert Hout. rewrite (handleSmartJoin_eq _ Hj).
    destruct (noComponents j); [discriminate|].
    destruct (Nat.ltb _ 2); [discriminate|].
    destruct (isAmbiguous _); [reflexivity|].
    destruct (singleInputOutput _); [|discriminate].
    destruct (newFlows _ _); discriminate. }
  rewrite Hg. unfold guidedJoinInit. simpl.
  split; [apply category_list_by_suffix|].
  split; [apply category_list_by_suffix|].
  split; [apply category_list_by_suffix|].
  assert (Hdisj : forall c c1 c2, c1 <> c2 ->
            In c (filter (hasCategory c1) (sortedNodes j)) ->
            ~ In c (filter (hasCategory c2) (sortedNodes j))).
  { intros c c1 c2 Hne H1 H2. apply filter_In in H1, H2.
    apply Hne. eapply hasCategory_functional; [apply H1 | apply H2]. }
  split; [intros c Hc; split; eapply Hdisj; try exact Hc; discriminate|].
  split; [intros c Hc; eapply Hdisj; try exact Hc; discriminate|].
  rewrite <- sortedNodes_length.
  generalize (sortedNodes j) as l. clear. intros l.
  induction l as [|c r IH]; simpl; [lia|].
  destruct (hasCategory Input c) eqn:Ei; destruct (hasCategory Transform c) eqn:Et;
    destruct (hasCategory Output c) eqn:Eo; simpl; try lia.
  all: try (pose proof (hasCategory_functional _ _ _ Ei Et) as Hx; discriminate Hx).
  all: try (pose proof (hasCategory_functional _ _ _ Ei Eo) as Hx; discriminate Hx).
  all: try (pose proof (hasCategory_functional _ _ _ Et Eo) as Hx; discriminate Hx).
Qed.

Lemma X18_guided_lists_witness :
  job (initialState twoInputsJob) = Some twoInputsJob
  /\ fst (handleSmartJoin (initialState twoInputsJob)) = AmbiguousTopology
  /\ StronglySorted
       (fun a b => getNumericSuffix (comp_id a) <= getNumericSuffix (comp_id b))
       (inputNodes (guidedJoinData (snd (handleSmartJoin (initialState twoInputsJob))))).
Proof.
  assert (Hout : fst (handleSmartJoin (initialState twoInputsJob)) = AmbiguousTopology)
    by (vm_compute; reflexivity).
  split; [reflexivity|]. split; [exact Hout|].
  exact (proj1 (@X18_guided_lists (initialState twoInputsJob) twoInputsJob
                  eq_refl Hout)).
Defined.

(** ** Two nodes are always separated *)


